(** * LayoutFlow layout resolution engine: [src/utils/layoutUtils.ts]

    A shallow embedding of the unit resolver, the anchor transform and the
    three-pass orchestrator [calculateRuntimePositions], together with the
    properties the specification states about them.

    Conventions of the embedding.
    - A JavaScript [number] is an exact rational ([Qc], canonical fractions,
      so that [=] is Leibniz equality and [===] is [bool_decide (_ = _)]).
      Rounding, infinities and NaN of IEEE-754 doubles are outside the model.
      Every division the source performs is by the literal 100, by the
      literal 2, or sits behind a [=== 0] guard, so the value [Qc] gives to
      [x / 0] is never used.
    - A string-literal union type is an inductive type, an optional field
      ([isContainer?], or a field read through [|| default]) is an [option].
    - [{ ...el, _runtime: r }] is [set_runtime el r]; the element record is
      polymorphic in its [_runtime] field because TypeScript infers a
      mandatory [_runtime] for the lists built by Pass 1 and Pass 2, and an
      optional one for [LayoutElement].
    - [Map<string, LayoutElement>] is [gmap string LayoutElement].
    - The recursive closure [calculateElement] takes fuel; running out of it
      is the error [OutOfFuel], a failed non-null assertion ([!]) or a
      property read on [undefined] are errors of their own. *)

From stdpp Require Import base option list numbers strings gmap fin_maps sorting.
From Stdlib Require Import QArith Qcanon Lqa Ascii.

Local Open Scope Qc_scope.

(** ** Types ([src/types.ts]) *)

Inductive UnitType := PX | PERCENT_PARENT_W | PERCENT_PARENT_H | VW | VH.

(** [AnchorX | AnchorY]: the five strings ['left'], ['center'], ['right'],
    ['top'], ['bottom']. *)
Inductive Anchor := Left | Center | Right | Top | Bottom.

(** The [axis: 'x' | 'y'] argument of the anchor transform. *)
Inductive PosAxis := AxisX | AxisY.

(** [type: 'rect' | 'circle']. *)
Inductive ShapeKind := RectShape | CircleShape.

Record LayoutValue := mkValue { lv_value : Qc; lv_unit : UnitType }.

Record LayoutConfig := mkLayout {
  lc_x : LayoutValue;
  lc_y : LayoutValue;
  lc_width : LayoutValue;
  lc_height : LayoutValue;
  lc_zIndex : option Qc;
  lc_anchorX : option Anchor;
  lc_anchorY : option Anchor;
  lc_isContainer : option bool
}.

Record Runtime := mkRuntime {
  rt_x : Qc;
  rt_y : Qc;
  rt_width : Qc;
  rt_height : Qc;
  rt_parentId : option string
}.

Record Element (R : Type) := mkElement {
  el_id : string;
  el_type : ShapeKind;
  el_name : string;
  el_layout : LayoutConfig;
  el_runtime : R
}.
Arguments mkElement {R} _ _ _ _ _.
Arguments el_id {R} _.
Arguments el_type {R} _.
Arguments el_name {R} _.
Arguments el_layout {R} _.
Arguments el_runtime {R} _.

(** [LayoutElement] of [types.ts]: [_runtime?] is optional. *)
Abbreviation LayoutElement := (Element (option Runtime)).
(** The element type of [estimatedElements] and [withParents]. *)
Abbreviation Placed := (Element Runtime).

Record Viewport := mkViewport {
  vp_name : string;
  vp_width : Qc;
  vp_height : Qc;
  vp_icon : string
}.

(** [{ x, y, width, height }], the type of [parentRect] and [refRect]. *)
Record Rect := mkRect { r_x : Qc; r_y : Qc; r_width : Qc; r_height : Qc }.

Global Instance UnitType_eq_dec : EqDecision UnitType.
Proof. solve_decision. Defined.
Global Instance Anchor_eq_dec : EqDecision Anchor.
Proof. solve_decision. Defined.
Global Instance PosAxis_eq_dec : EqDecision PosAxis.
Proof. solve_decision. Defined.
Global Instance ShapeKind_eq_dec : EqDecision ShapeKind.
Proof. solve_decision. Defined.
Global Instance LayoutValue_eq_dec : EqDecision LayoutValue.
Proof. solve_decision. Defined.
Global Instance LayoutConfig_eq_dec : EqDecision LayoutConfig.
Proof. solve_decision. Defined.
Global Instance Runtime_eq_dec : EqDecision Runtime.
Proof. solve_decision. Defined.
Global Instance Element_eq_dec `{EqDecision R} : EqDecision (Element R).
Proof. solve_decision. Defined.
Global Instance Rect_eq_dec : EqDecision Rect.
Proof. solve_decision. Defined.

(** The numeric literals of the source. *)
Definition num (z : Z) : Qc := Qc_of_Z z.

(** [{ ...el, _runtime: r }] *)
Definition set_runtime {R R'} (el : Element R) (r : R') : Element R' :=
  mkElement (el_id el) (el_type el) (el_name el) (el_layout el) r.

(** A [Placed] element read where a [LayoutElement] is expected. *)
Definition as_layout (el : Placed) : LayoutElement :=
  set_runtime el (Some (el_runtime el)).

(** ** Unit resolver *)

Definition resolveLength (val : LayoutValue) (viewport : Viewport)
    (parentRect : Rect) : Qc :=
  match lv_unit val with
  | PX => lv_value val
  | PERCENT_PARENT_W => (lv_value val / num 100) * r_width parentRect
  | PERCENT_PARENT_H => (lv_value val / num 100) * r_height parentRect
  | VW => (lv_value val / num 100) * vp_width viewport
  | VH => (lv_value val / num 100) * vp_height viewport
  end.

Definition toPixels (val : LayoutValue) (viewport : Viewport)
    (parentRect : Rect) : Qc :=
  resolveLength val viewport parentRect.

Definition fromPixels (pixels : Qc) (targetUnit : UnitType)
    (viewport : Viewport) (parentRect : Rect) : Qc :=
  match targetUnit with
  | PX => pixels
  | PERCENT_PARENT_W =>
      if bool_decide (r_width parentRect = 0) then 0
      else (pixels / r_width parentRect) * num 100
  | PERCENT_PARENT_H =>
      if bool_decide (r_height parentRect = 0) then 0
      else (pixels / r_height parentRect) * num 100
  | VW =>
      if bool_decide (vp_width viewport = 0) then 0
      else (pixels / vp_width viewport) * num 100
  | VH =>
      if bool_decide (vp_height viewport = 0) then 0
      else (pixels / vp_height viewport) * num 100
  end.

(** ** Anchor transform *)

(** [unit === VW || unit === VH] *)
Definition isGlobal (u : UnitType) : bool :=
  match u with VW | VH => true | _ => false end.

Definition viewportRect (viewport : Viewport) : Rect :=
  mkRect 0 0 (vp_width viewport) (vp_height viewport).

Definition refRectOf (u : UnitType) (viewport : Viewport)
    (parentRect : Rect) : Rect :=
  if isGlobal u then viewportRect viewport else parentRect.

Definition convertOffsetToAbsolute (val : LayoutValue) (anchor : Anchor)
    (axis : PosAxis) (elementSize : Qc) (viewport : Viewport)
    (parentRect : Rect) : Qc :=
  let length := resolveLength val viewport parentRect in
  let refRect := refRectOf (lv_unit val) viewport parentRect in
  match axis with
  | AxisX =>
      match anchor with
      | Left => r_x refRect + length
      | Right => r_x refRect + r_width refRect - length - elementSize
      | Center =>
          r_x refRect + (r_width refRect / num 2) + length
          - (elementSize / num 2)
      | _ => 0
      end
  | AxisY =>
      match anchor with
      | Top => r_y refRect + length
      | Bottom => r_y refRect + r_height refRect - length - elementSize
      | Center =>
          r_y refRect + (r_height refRect / num 2) + length
          - (elementSize / num 2)
      | _ => 0
      end
  end.

Definition convertAbsoluteToOffset (absPos : Qc) (anchor : Anchor)
    (axis : PosAxis) (elementSize : Qc) (targetUnit : UnitType)
    (viewport : Viewport) (parentRect : Rect) : Qc :=
  let refRect := refRectOf targetUnit viewport parentRect in
  let pixelOffset :=
    match axis with
    | AxisX =>
        match anchor with
        | Left => absPos - r_x refRect
        | Right => r_x refRect + r_width refRect - absPos - elementSize
        | Center =>
            (absPos + elementSize / num 2)
            - (r_x refRect + r_width refRect / num 2)
        | _ => 0
        end
    | AxisY =>
        match anchor with
        | Top => absPos - r_y refRect
        | Bottom => r_y refRect + r_height refRect - absPos - elementSize
        | Center =>
            (absPos + elementSize / num 2)
            - (r_y refRect + r_height refRect / num 2)
        | _ => 0
        end
    end in
  match targetUnit with
  | PX => pixelOffset
  | PERCENT_PARENT_W =>
      if bool_decide (r_width parentRect = 0) then 0
      else (pixelOffset / r_width parentRect) * num 100
  | PERCENT_PARENT_H =>
      if bool_decide (r_height parentRect = 0) then 0
      else (pixelOffset / r_height parentRect) * num 100
  | VW =>
      if bool_decide (vp_width viewport = 0) then 0
      else (pixelOffset / vp_width viewport) * num 100
  | VH =>
      if bool_decide (vp_height viewport = 0) then 0
      else (pixelOffset / vp_height viewport) * num 100
  end.

(** ** The result of fallible code *)

Inductive error :=
  | TypeError        (* a property read on [undefined] *)
  | NonNullViolated  (* [e!] where [e] is [undefined] *)
  | OutOfFuel.       (* the recursion went deeper than the fuel given *)

Inductive result (A : Type) := Ok (a : A) | Err (e : error).
Arguments Ok {A} _.
Arguments Err {A} _.

Global Instance result_ret : MRet result := λ A a, Ok a.
Global Instance result_bind : MBind result := λ A B f m,
  match m with Ok a => f a | Err e => Err e end.

(** [l.forEach(x => body x)] over a threaded state. *)
Fixpoint forEachM {A S} (body : S → A → result S) (l : list A) (s : S)
    : result S :=
  match l with
  | [] => Ok s
  | a :: l' => s' ← body s a; forEachM body l' s'
  end.

(** [l.map(f)] where [f] may fail. *)
Fixpoint mapR {A B} (f : A → result B) (l : list A) : result (list B) :=
  match l with
  | [] => Ok []
  | a :: l' => b ← f a; bs ← mapR f l'; Ok (b :: bs)
  end.

(** ** [Array.prototype.sort] with a comparator

    The comparator returns a number; [cmp a b > 0] asks for [a] after [b].
    ECMAScript (since ES2019) requires the sort to be stable, and for a
    consistent comparator the sorted array is then unique: the stable
    insertion sort below computes it. An element moves behind a later one
    only when the comparator is strictly positive. *)

Section Sort.
Context {A : Type} (cmp : A → A → Qc).

Fixpoint sort_insert (a : A) (l : list A) : list A :=
  match l with
  | [] => [a]
  | b :: l' =>
      if bool_decide (0 < cmp a b) then b :: sort_insert a l' else a :: l
  end.

Definition sort (l : list A) : list A := foldr sort_insert [] l.
End Sort.

(** ** Orchestrator: [calculateRuntimePositions] *)

(** Pass 1: the body of [elements.map((el) => ...)]. *)
Definition estimate (viewport : Viewport) (el : LayoutElement) : Placed :=
  let parentRect := viewportRect viewport in
  let width := toPixels (lc_width (el_layout el)) viewport parentRect in
  let height := toPixels (lc_height (el_layout el)) viewport parentRect in
  let x := convertOffsetToAbsolute (lc_x (el_layout el))
             (default Left (lc_anchorX (el_layout el))) AxisX width
             viewport parentRect in
  let y := convertOffsetToAbsolute (lc_y (el_layout el))
             (default Top (lc_anchorY (el_layout el))) AxisY height
             viewport parentRect in
  set_runtime el (mkRuntime x y width height None).

(** Pass 2: the centre of the child and the [filter] predicate. *)
Definition centerX (r : Runtime) : Qc := rt_x r + rt_width r / num 2.
Definition centerY (r : Runtime) : Qc := rt_y r + rt_height r / num 2.

Definition isPotentialParent (child p : Placed) : bool :=
  let cx := centerX (el_runtime child) in
  let cy := centerY (el_runtime child) in
  if bool_decide (el_id p = el_id child) then false
  else if bool_decide (lc_isContainer (el_layout p) = Some false) then false
  else
    let pRect := el_runtime p in
    bool_decide (rt_x pRect ≤ cx)
    && bool_decide (cx ≤ rt_x pRect + rt_width pRect)
    && bool_decide (rt_y pRect ≤ cy)
    && bool_decide (cy ≤ rt_y pRect + rt_height pRect).

(** [layout.zIndex || 0] *)
Definition zOf (e : Placed) : Qc := default 0 (lc_zIndex (el_layout e)).

Definition areaOf (e : Placed) : Qc :=
  rt_width (el_runtime e) * rt_height (el_runtime e).

(** The comparator handed to [potentialParents.sort]. *)
Definition compareParents (a b : Placed) : Qc :=
  let zDiff := zOf b - zOf a in
  if bool_decide (zDiff ≠ 0) then zDiff else areaOf a - areaOf b.

Definition potentialParents (estimatedElements : list Placed)
    (child : Placed) : list Placed :=
  sort compareParents
    (List.filter (isPotentialParent child) estimatedElements).

(** [{ ...child._runtime!, parentId: id }] *)
Definition with_parentId (r : Runtime) (pid : string) : Runtime :=
  mkRuntime (rt_x r) (rt_y r) (rt_width r) (rt_height r) (Some pid).

(** Pass 2: the body of [estimatedElements.map((child) => ...)]. *)
Definition assignParent (estimatedElements : list Placed) (child : Placed)
    : Placed :=
  match potentialParents estimatedElements child with
  | parent :: _ =>
      set_runtime child (with_parentId (el_runtime child) (el_id parent))
  | [] => child
  end.

(** Truthiness of a [string | null]: [null] and the empty string are falsy. *)
Definition truthy (o : option string) : option string :=
  match o with
  | Some s => if bool_decide (s = "") then None else Some s
  | None => None
  end.

Definition rectOfRuntime (r : Runtime) : Rect :=
  mkRect (rt_x r) (rt_y r) (rt_width r) (rt_height r).

(** Pass 3: the closure [calculateElement]; [viewport] and [withParents] are
    captured, [finalMap] is the mutable map, threaded here. *)
Section Finalize.
Variable viewport : Viewport.
Variable withParents : list Placed.

(** [withParents.find(e => e.id === id)] *)
Definition findById (id : string) : option Placed :=
  List.find (λ e, bool_decide (el_id e = id)) withParents.

(** The tail of [calculateElement] once [parentRect] is known. *)
Definition finalize (el : Placed) (parentRect : Rect) : LayoutElement :=
  let width := toPixels (lc_width (el_layout el)) viewport parentRect in
  let height := toPixels (lc_height (el_layout el)) viewport parentRect in
  let x := convertOffsetToAbsolute (lc_x (el_layout el))
             (default Left (lc_anchorX (el_layout el))) AxisX width
             viewport parentRect in
  let y := convertOffsetToAbsolute (lc_y (el_layout el))
             (default Top (lc_anchorY (el_layout el))) AxisY height
             viewport parentRect in
  set_runtime el
    (Some (mkRuntime x y width height (rt_parentId (el_runtime el)))).

(** [if (parentEl && parentEl._runtime) parentRect = {...}] *)
Definition parentRectOf (parentEl : option LayoutElement) : Rect :=
  match parentEl with
  | Some p =>
      match el_runtime p with
      | Some r => rectOfRuntime r
      | None => viewportRect viewport
      end
  | None => viewportRect viewport
  end.

Fixpoint calculateElement (fuel : nat) (id : string) (stack : list string)
    (finalMap : gmap string LayoutElement)
    : result (option LayoutElement * gmap string LayoutElement) :=
  match fuel with
  | O => Err OutOfFuel
  | S fuel' =>
      match finalMap !! id with
      | Some e => Ok (Some e, finalMap)
      | None =>
          if bool_decide (id ∈ stack)
          then Ok (as_layout <$> findById id, finalMap)
          else
            match findById id with
            | None => Err TypeError
            | Some el =>
                '(parentRect, finalMap') ←
                  match truthy (rt_parentId (el_runtime el)) with
                  | Some pid =>
                      '(parentEl, m) ←
                        calculateElement fuel' pid (stack ++ [id]) finalMap;
                      Ok (parentRectOf parentEl, m)
                  | None => Ok (viewportRect viewport, finalMap)
                  end;
                let res := finalize el parentRect in
                Ok (Some res, <[id := res]> finalMap')
            end
      end
  end.

(** [withParents.forEach(el => calculateElement(el.id))] *)
Definition finalizeAll (fuel : nat) : result (gmap string LayoutElement) :=
  forEachM
    (λ m el, '(_, m') ← calculateElement fuel (el_id el) [] m; Ok m')
    withParents ∅.
End Finalize.

Definition estimateAll (elements : list LayoutElement) (viewport : Viewport)
    : list Placed :=
  map (estimate viewport) elements.

Definition assignParents (estimatedElements : list Placed) : list Placed :=
  map (assignParent estimatedElements) estimatedElements.

(** The recursion of [calculateElement] pushes one more id on each call and
    stops at an id it has pushed, so it is never deeper than the number of
    elements plus one: that is the fuel it is run with. *)
Definition calculateRuntimePositions (elements : list LayoutElement)
    (viewport : Viewport) : result (list LayoutElement) :=
  let estimatedElements := estimateAll elements viewport in
  let withParents := assignParents estimatedElements in
  finalMap ← finalizeAll viewport withParents (S (length withParents));
  mapR (λ el,
          match finalMap !! el_id el with
          | Some e => Ok e
          | None => Err NonNullViolated
          end) elements.

(** ** Concrete inputs: Scenario A of the specification *)

Definition px (z : Z) : LayoutValue := mkValue (num z) PX.

Definition vp1280 : Viewport := mkViewport "Desktop" (num 1280) (num 800) "".

Definition scenarioC : LayoutElement :=
  mkElement "C" RectShape "Container"
    (mkLayout (px 0) (px 0) (mkValue (num 50) PERCENT_PARENT_W)
       (mkValue (num 50) PERCENT_PARENT_H) (Some (num 1)) (Some Left)
       (Some Top) (Some true))
    None.

Definition scenarioD : LayoutElement :=
  mkElement "D" RectShape "Child"
    (mkLayout (px 10) (px 10) (px 50) (px 50) (Some (num 2)) (Some Left)
       (Some Top) None)
    None.

Global Instance error_eq_dec : EqDecision error.
Proof. solve_decision. Defined.
Global Instance result_eq_dec `{EqDecision A} : EqDecision (result A).
Proof. solve_decision. Defined.

(** ** Vocabulary of the specification *)

(** The dimension a percent unit is a percentage of; [None] for pixels. *)
Definition referenceDimension (u : UnitType) (viewport : Viewport)
    (parentRect : Rect) : option Qc :=
  match u with
  | PX => None
  | PERCENT_PARENT_W => Some (r_width parentRect)
  | PERCENT_PARENT_H => Some (r_height parentRect)
  | VW => Some (vp_width viewport)
  | VH => Some (vp_height viewport)
  end.

(** The anchors of an axis: start, center, end. *)
Definition startAnchor (axis : PosAxis) : Anchor :=
  match axis with AxisX => Left | AxisY => Top end.
Definition endAnchor (axis : PosAxis) : Anchor :=
  match axis with AxisX => Right | AxisY => Bottom end.

Definition anchorOfAxis (axis : PosAxis) (a : Anchor) : Prop :=
  a = startAnchor axis ∨ a = Center ∨ a = endAnchor axis.

(** Origin and size of a rectangle along an axis. *)
Definition originAlong (axis : PosAxis) (R : Rect) : Qc :=
  match axis with AxisX => r_x R | AxisY => r_y R end.
Definition sizeAlong (axis : PosAxis) (R : Rect) : Qc :=
  match axis with AxisX => r_width R | AxisY => r_height R end.

(** A degenerate parent rectangle, for the zero-size cases. *)
Definition emptyRect : Rect := mkRect 0 0 0 0.

(** The keys of the order the specification gives the candidates, read
    from the fields of the element and not through the comparator: the
    z-order, 0 where the layout has none, and the area of the estimated
    rectangle, its width times its height. *)
Definition orderKeys (e : Placed) : Qc * Qc :=
  (match lc_zIndex (el_layout e) with Some z => z | None => 0 end,
   rt_width (el_runtime e) * rt_height (el_runtime e)).

(** The specified order: higher z first, and on equal z the smaller area
    first. *)
Definition parentBefore (a b : Placed) : Prop :=
  (orderKeys b).1 < (orderKeys a).1
  ∨ ((orderKeys a).1 = (orderKeys b).1
     ∧ (orderKeys a).2 ≤ (orderKeys b).2).

(** The centre of [child] lies in the closed rectangle of [p]. *)
Definition insideClosed (child p : Placed) : Prop :=
  let cx := rt_x (el_runtime child) + rt_width (el_runtime child) / num 2 in
  let cy := rt_y (el_runtime child) + rt_height (el_runtime child) / num 2 in
  (rt_x (el_runtime p) ≤ cx
   ∧ cx ≤ rt_x (el_runtime p) + rt_width (el_runtime p))
  ∧ (rt_y (el_runtime p) ≤ cy
     ∧ cy ≤ rt_y (el_runtime p) + rt_height (el_runtime p)).

(** The resolved parent of an output element, [None] when [_runtime] is
    missing and [Some null] for a root element. *)
Definition parentIdOf (e : LayoutElement) : option (option string) :=
  rt_parentId <$> el_runtime e.

(** The resolved parents of a whole output. *)
Definition resolvedParents (r : result (list LayoutElement))
    : result (list (option (option string))) :=
  match r with
  | Ok out => Ok (parentIdOf <$> out)
  | Err e => Err e
  end.

(** A pixel box: id, position, size, z-order, [isContainer]. *)
Definition box (id : string) (x y w h z : Z) (c : option bool)
    : LayoutElement :=
  mkElement id RectShape id
    (mkLayout (px x) (px y) (px w) (px h) (Some (num z)) (Some Left)
       (Some Top) c)
    None.

(** The tie-break scenario: two containers of equal z-order, 500x500 and
    300x300, and a child whose centre (410,410) lies in both. *)
Definition tieBig : LayoutElement := box "big" 0 0 500 500 1 None.
Definition tieSmall : LayoutElement := box "small" 300 300 300 300 1 None.
Definition tieKid : LayoutElement := box "kid" 400 400 20 20 5 None.

(** An element in viewport units only, placed inside the container of
    Scenario A: 1vw, 1vh, 5vw by 5vh. *)
Definition scenarioV : LayoutElement :=
  mkElement "V" RectShape "Viewport child"
    (mkLayout (mkValue (num 1) VW) (mkValue (num 1) VH)
       (mkValue (num 5) VW) (mkValue (num 5) VH) (Some (num 2))
       (Some Left) (Some Top) None)
    None.

(** A container whose layout has no [zIndex]. *)
Definition boxNoZ (id : string) (x y w h : Z) : LayoutElement :=
  mkElement id RectShape id
    (mkLayout (px x) (px y) (px w) (px h) None (Some Left) (Some Top) None)
    None.

(** The z-order decides before the area: the 500x500 container is above
    the 300x300 one. *)
Definition zWins : list LayoutElement :=
  [box "big" 0 0 500 500 2 None; box "small" 300 300 300 300 1 None;
   tieKid].

(** The second key is the area, not the width: 800x80 is wider and
    smaller than 300x300. *)
Definition areaNotWidth : list LayoutElement :=
  [box "wide" 350 380 800 80 1 None; box "tall" 300 300 300 300 1 None;
   tieKid].

(** A missing z-order counts as 0, above a z-order of -1. *)
Definition missingZ : list LayoutElement :=
  [boxNoZ "plain" 0 0 500 500; box "neg" 300 300 300 300 (-1) None; tieKid].

(** Two candidates equal in z-order and area. *)
Definition twinA : LayoutElement := box "a" 300 300 300 300 1 None.
Definition twinB : LayoutElement := box "b" 300 300 300 300 1 None.


(** An enclosing element that is not a container, on top of Scenario A. *)
Definition scenarioLid : LayoutElement :=
  box "lid" 0 0 1000 700 9 (Some false).

(** Every truthy [parentId] of the table is the id of one of its
    elements. *)
Definition closedParents (withParents : list Placed) : Prop :=
  ∀ el pid, el ∈ withParents →
    truthy (rt_parentId (el_runtime el)) = Some pid →
    pid ∈ el_id <$> withParents.

(** Every entry of [finalMap] is the finalization, against some rectangle,
    of the first element of [withParents] with the entry's key. *)
Definition finalized (viewport : Viewport) (withParents : list Placed)
    (m : gmap string LayoutElement) : Prop :=
  ∀ id e, m !! id = Some e →
    ∃ el rect, findById withParents id = Some el
               ∧ e = finalize viewport el rect.

(** Two elements that share an id, and a third whose centre lies in the
    second of them only. *)
Definition dupA : LayoutElement := box "a" 5 5 10 10 1 None.
Definition dupB : LayoutElement := box "a" 100 100 100 100 1 None.
Definition dupC : LayoutElement := box "c" 145 145 10 10 2 None.

(** Two containers, each holding the centre of the other: Pass 2 makes each
    the parent of the other. *)
Definition cycA : LayoutElement := box "A" 0 0 100 100 1 None.
Definition cycB : LayoutElement := box "B" 10 10 100 100 1 None.

(** What Pass 1 reads of an element: everything but [_runtime]. *)
Definition persisted {R} (el : Element R) : Element () := set_runtime el ().

(** The [_runtime] of the [i]-th element of an output. *)
Definition runtimeAt (i : nat) (r : result (list LayoutElement))
    : option (option Runtime) :=
  match r with
  | Ok out => el_runtime <$> out !! i
  | Err _ => None
  end.

(** ** [getParentRect] ([src/utils/layoutUtils.ts])

    The returned object [{ x, y, width, height, name }]: callers pass it
    where a plain rectangle is expected, which is [nr_rect]. *)
Record NamedRect := mkNamedRect { nr_rect : Rect; nr_name : string }.

Global Instance NamedRect_eq_dec : EqDecision NamedRect.
Proof. solve_decision. Defined.

(** [{ x: 0, y: 0, width: viewport.width, height: viewport.height,
       name: 'Canvas' }] *)
Definition canvasRect (viewport : Viewport) : NamedRect :=
  mkNamedRect (viewportRect viewport) "Canvas".

Definition getParentRect (parentId : option string)
    (elements : list LayoutElement) (viewport : Viewport) : NamedRect :=
  match truthy parentId with
  | None => canvasRect viewport
  | Some pid =>
      if bool_decide (pid = "root") then canvasRect viewport
      else
        match List.find (λ el, bool_decide (el_id el = pid)) elements with
        | Some parent =>
            match el_runtime parent with
            | Some r => mkNamedRect (rectOfRuntime r) (el_name parent)
            | None => canvasRect viewport
            end
        | None => canvasRect viewport
        end
  end.

(** How an entry of [finalMap] was computed: against the viewport when the
    element has no (truthy) parent, and otherwise against the parent's entry
    of the map or, when the parent was on the resolution stack, against the
    parent's entry of [withParents]. *)
Definition resolvedEntry (viewport : Viewport) (withParents : list Placed)
    (m : gmap string LayoutElement) (id : string) (e : LayoutElement)
    : Prop :=
  ∃ el, findById withParents id = Some el
    ∧ match truthy (rt_parentId (el_runtime el)) with
      | None => e = finalize viewport el (viewportRect viewport)
      | Some pid =>
          (∃ p, m !! pid = Some p
                ∧ e = finalize viewport el (parentRectOf viewport (Some p)))
          ∨ e = finalize viewport el
                  (parentRectOf viewport
                     (as_layout <$> findById withParents pid))
      end.

Definition resolved (viewport : Viewport) (withParents : list Placed)
    (m : gmap string LayoutElement) : Prop :=
  ∀ id e, m !! id = Some e → resolvedEntry viewport withParents m id e.

(** The resolved rectangle of an output element. *)
Definition finalRect (e : LayoutElement) : option Rect :=
  rectOfRuntime <$> el_runtime e.

(** ** The property panel ([src/unnamed/part_000], [PropertyPanel.tsx])

    The closures of the React components are functions of the values they
    capture; an event handler returns what it hands to its callback. *)

(** [type UnitCategory = 'px' | 'percent' | 'viewport'] *)
Inductive UnitCategory := CatPx | CatPercent | CatViewport.

(** [type Axis = 'x' | 'y' | 'width' | 'height'] of [types.ts]. *)
Inductive Axis := AxX | AxY | AxWidth | AxHeight.

Global Instance UnitCategory_eq_dec : EqDecision UnitCategory.
Proof. solve_decision. Defined.
Global Instance Axis_eq_dec : EqDecision Axis.
Proof. solve_decision. Defined.

Definition getUnitCategory (u : UnitType) : UnitCategory :=
  if bool_decide (u = PX) then CatPx
  else if bool_decide (u = VW ∨ u = VH) then CatViewport
  else CatPercent.

(** [axis === 'x' || axis === 'width'] *)
Definition isHorizontal (axis : Axis) : bool :=
  bool_decide (axis = AxX ∨ axis = AxWidth).

(** The unit [handleUnitClick] of [PropertyRow] switches to. *)
Definition nextUnitOf (value : LayoutValue) (axis : Axis)
    (targetCategory : UnitCategory) : UnitType :=
  let currentCategory := getUnitCategory (lv_unit value) in
  match targetCategory with
  | CatPx => PX
  | CatPercent =>
      if bool_decide (currentCategory = CatPercent)
      then if bool_decide (lv_unit value = PERCENT_PARENT_W)
           then PERCENT_PARENT_H else PERCENT_PARENT_W
      else if isHorizontal axis then PERCENT_PARENT_W else PERCENT_PARENT_H
  | CatViewport =>
      if bool_decide (currentCategory = CatViewport)
      then if bool_decide (lv_unit value = VW) then VH else VW
      else if isHorizontal axis then VW else VH
  end.

(** [handleUnitClick]: the value handed to [onChange]. *)
Definition handleUnitClick (value : LayoutValue) (axis : Axis)
    (currentPixels : Qc) (viewport : Viewport) (parentRect : Rect)
    (targetCategory : UnitCategory) : LayoutValue :=
  let nextUnit := nextUnitOf value axis targetCategory in
  let newValue := fromPixels currentPixels nextUnit viewport parentRect in
  mkValue newValue nextUnit.

(** [Partial<LayoutConfig>]: [None] is a key the object does not have. *)
Record LayoutPatch := mkPatch {
  p_x : option LayoutValue;
  p_y : option LayoutValue;
  p_width : option LayoutValue;
  p_height : option LayoutValue;
  p_zIndex : option (option Qc);
  p_anchorX : option Anchor;
  p_anchorY : option Anchor;
  p_isContainer : option bool
}.

(** [{ ...layout, ...newLayout }] *)
Definition applyPatch (layout : LayoutConfig) (newLayout : LayoutPatch)
    : LayoutConfig :=
  mkLayout
    (default (lc_x layout) (p_x newLayout))
    (default (lc_y layout) (p_y newLayout))
    (default (lc_width layout) (p_width newLayout))
    (default (lc_height layout) (p_height newLayout))
    (default (lc_zIndex layout) (p_zIndex newLayout))
    (match p_anchorX newLayout with
     | Some a => Some a
     | None => lc_anchorX layout
     end)
    (match p_anchorY newLayout with
     | Some a => Some a
     | None => lc_anchorY layout
     end)
    (match p_isContainer newLayout with
     | Some c => Some c
     | None => lc_isContainer layout
     end).

(** [{ ...v, value: newValue }] *)
Definition with_value (v : LayoutValue) (newValue : Qc) : LayoutValue :=
  mkValue newValue (lv_unit v).

(** ** The canvas ([src/components/Canvas.tsx])

    [DragState] of [types.ts] and the [tempRect] state of the component. *)
Record DragState := mkDragState {
  isDragging : bool;
  isResizing : bool;
  startX : Qc;
  startY : Qc;
  initialRect : Rect;
  handle : option string
}.

Record TempRect := mkTempRect {
  tr_id : string;
  tr_x : Qc;
  tr_y : Qc;
  tr_w : Qc;
  tr_h : Qc
}.

Global Instance TempRect_eq_dec : EqDecision TempRect.
Proof. solve_decision. Defined.

(** [Math.max] and [Math.min] of two numbers. *)
Definition mathMax (a b : Qc) : Qc := if bool_decide (a ≤ b) then b else a.
Definition mathMin (a b : Qc) : Qc := if bool_decide (a ≤ b) then a else b.

(** [h.includes(c)] for a one-character string [c]. *)
Fixpoint includes (h : string) (c : ascii) : bool :=
  match h with
  | EmptyString => false
  | String a h' => if bool_decide (a = c) then true else includes h' c
  end.

(** [handleMouseMove]: the [tempRect] state after the event. [scale] is the
    zoom factor of the canvas, a positive number. *)
Definition handleMouseMove (dragState : option DragState)
    (tempRect : option TempRect) (scale clientX clientY : Qc)
    : option TempRect :=
  match dragState, tempRect with
  | Some ds, Some tr =>
      let deltaX := (clientX - startX ds) / scale in
      let deltaY := (clientY - startY ds) / scale in
      let init := initialRect ds in
      if isDragging ds then
        Some (mkTempRect (tr_id tr) (r_x init + deltaX) (r_y init + deltaY)
                (tr_w tr) (tr_h tr))
      else
        match (if isResizing ds then truthy (handle ds) else None) with
        | Some h =>
            let newX := r_x init in
            let newY := r_y init in
            let newW := r_width init in
            let newH := r_height init in
            let newW :=
              if includes h "e"%char then mathMax (num 10) (r_width init + deltaX)
              else newW in
            let '(newX, newW) :=
              if includes h "w"%char then
                let wChange := mathMin (r_width init - num 10) deltaX in
                (newX + wChange, newW - wChange)
              else (newX, newW) in
            let newH :=
              if includes h "s"%char then mathMax (num 10) (r_height init + deltaY)
              else newH in
            let '(newY, newH) :=
              if includes h "n"%char then
                let hChange := mathMin (r_height init - num 10) deltaY in
                (newY + hChange, newH - hChange)
              else (newY, newH) in
            Some (mkTempRect (tr_id tr) newX newY newW newH)
        | None => tempRect
        end
  | _, _ => tempRect
  end.

(** The [filter] predicate of [handleMouseUp]; [cx], [cy] is the centre of
    the dropped rectangle. *)
Definition canvasIsPotentialParent (el : LayoutElement) (cx cy : Qc)
    (p : LayoutElement) : bool :=
  if bool_decide (el_id p = el_id el) then false
  else
    match el_runtime p with
    | None => false
    | Some pRect =>
        if bool_decide (lc_isContainer (el_layout p) = Some false)
        then false
        else
          bool_decide (rt_x pRect ≤ cx)
          && bool_decide (cx ≤ rt_x pRect + rt_width pRect)
          && bool_decide (rt_y pRect ≤ cy)
          && bool_decide (cy ≤ rt_y pRect + rt_height pRect)
    end.

(** [(a.layout.zIndex || 0)] and
    [(a._runtime?.width || 0) * (a._runtime?.height || 0)] *)
Definition canvasZ (a : LayoutElement) : Qc :=
  default 0 (lc_zIndex (el_layout a)).
Definition canvasArea (a : LayoutElement) : Qc :=
  match el_runtime a with Some r => rt_width r | None => 0 end
  * match el_runtime a with Some r => rt_height r | None => 0 end.

Definition canvasCompare (a b : LayoutElement) : Qc :=
  let zDiff := canvasZ b - canvasZ a in
  if bool_decide (zDiff ≠ 0) then zDiff else canvasArea a - canvasArea b.

Definition canvasPotentialParents (displayElements : list LayoutElement)
    (el : LayoutElement) (tr : TempRect) : list LayoutElement :=
  let cx := tr_x tr + tr_w tr / num 2 in
  let cy := tr_y tr + tr_h tr / num 2 in
  sort canvasCompare
    (List.filter (canvasIsPotentialParent el cx cy) displayElements).

(** [potentialParents[0]] *)
Definition dropParent (displayElements : list LayoutElement)
    (el : LayoutElement) (tr : TempRect) : option LayoutElement :=
  head (canvasPotentialParents displayElements el tr).

(** [a <= b] on numbers that may be [undefined]: false unless both are
    numbers. *)
Definition zLe (a b : option Qc) : bool :=
  match a, b with
  | Some x, Some y => bool_decide (x ≤ y)
  | _, _ => false
  end.

(** Step 3 of [handleMouseUp]: the z-index after the drop. *)
Definition dropZIndex (el : LayoutElement) (newParent : option LayoutElement)
    : option Qc :=
  match newParent with
  | Some parent =>
      if zLe (lc_zIndex (el_layout el)) (lc_zIndex (el_layout parent))
      then (λ z, z + 1) <$> lc_zIndex (el_layout parent)
      else lc_zIndex (el_layout el)
  | None => lc_zIndex (el_layout el)
  end.

(** Step 4: the rectangle of the new parent. *)
Definition dropParentRect (elements : list LayoutElement)
    (viewport : Viewport) (el : LayoutElement) (tr : TempRect) : Rect :=
  nr_rect
    (getParentRect (el_id <$> dropParent elements el tr) elements viewport).

(** Step 5: [newLayout] after the four assignments to its values. The
    [LayoutValue] objects of an element are fresh object literals
    ([App.tsx]), not shared between fields or elements, so the writes
    [newLayout.x.value = ...] are record updates. *)
Definition dropLayout (elements : list LayoutElement) (viewport : Viewport)
    (el : LayoutElement) (tr : TempRect) : LayoutConfig :=
  let newParent := dropParent elements el tr in
  let newZIndex := dropZIndex el newParent in
  let parentRect := dropParentRect elements viewport el tr in
  let l := el_layout el in
  let xOffset :=
    convertAbsoluteToOffset (tr_x tr) (default Left (lc_anchorX l)) AxisX
      (tr_w tr) (lv_unit (lc_x l)) viewport parentRect in
  let yOffset :=
    convertAbsoluteToOffset (tr_y tr) (default Top (lc_anchorY l)) AxisY
      (tr_h tr) (lv_unit (lc_y l)) viewport parentRect in
  mkLayout
    (with_value (lc_x l) xOffset)
    (with_value (lc_y l) yOffset)
    (with_value (lc_width l)
       (fromPixels (tr_w tr) (lv_unit (lc_width l)) viewport parentRect))
    (with_value (lc_height l)
       (fromPixels (tr_h tr) (lv_unit (lc_height l)) viewport parentRect))
    newZIndex (lc_anchorX l) (lc_anchorY l) (lc_isContainer l).

(** The [_runtime] written in step 6. *)
Definition dropRuntime (elements : list LayoutElement) (el : LayoutElement)
    (tr : TempRect) : Runtime :=
  mkRuntime (tr_x tr) (tr_y tr) (tr_w tr) (tr_h tr)
    (el_id <$> dropParent elements el tr).

(** [handleMouseUp]: the list handed to [onUpdateElements], [None] when the
    callback is not called. [displayElements] is [elements]. *)
Definition handleMouseUp (dragState : option DragState)
    (tempRect : option TempRect) (elements : list LayoutElement)
    (viewport : Viewport) : option (list LayoutElement) :=
  match dragState, tempRect with
  | Some _, Some tr =>
      match List.find (λ x, bool_decide (el_id x = tr_id tr)) elements with
      | Some el =>
          let newLayout := dropLayout elements viewport el tr in
          Some
            (map
               (λ e,
                  if bool_decide (el_id e = el_id el)
                  then mkElement (el_id e) (el_type e) (el_name e) newLayout
                         (Some (dropRuntime elements el tr))
                  else e)
               elements)
      | None => None
      end
  | _, _ => None
  end.

(** The elements that carry a [_runtime], with it as their rectangle. *)
Definition placedOf (elements : list LayoutElement) : list Placed :=
  omap (λ e, set_runtime e <$> el_runtime e) elements.

(** The dropped rectangle as the rectangle of [el]. *)
Definition droppedAs (el : LayoutElement) (tr : TempRect) : Placed :=
  set_runtime el (mkRuntime (tr_x tr) (tr_y tr) (tr_w tr) (tr_h tr) None).

(** The order of the canvas comparator. *)
Definition canvasBefore (a b : LayoutElement) : Prop :=
  canvasZ b < canvasZ a
  ∨ (canvasZ a = canvasZ b ∧ canvasArea a ≤ canvasArea b).

(** [q] passes the canvas filter for a drop of [el] centred at
    [(cx, cy)]. *)
Definition canvasCandidate (el : LayoutElement) (cx cy : Qc)
    (q : LayoutElement) : Prop :=
  el_id q ≠ el_id el
  ∧ lc_isContainer (el_layout q) ≠ Some false
  ∧ ∃ r, el_runtime q = Some r
         ∧ (rt_x r ≤ cx ∧ cx ≤ rt_x r + rt_width r)
         ∧ (rt_y r ≤ cy ∧ cy ≤ rt_y r + rt_height r).

(** ** [updateElement] ([src/App.tsx]) and [updateProp] of the panel *)

(** Two placed elements that Pass 2 cannot tell apart: same id, rectangle,
    parent, z-order and [isContainer]. *)
Definition sameBox (a b : Placed) : Prop :=
  el_id a = el_id b ∧ el_runtime a = el_runtime b
  ∧ lc_zIndex (el_layout a) = lc_zIndex (el_layout b)
  ∧ lc_isContainer (el_layout a) = lc_isContainer (el_layout b).

(** ... and that Pass 3 cannot tell apart either: they finalize alike
    against every rectangle they can meet, which is the viewport only when
    they have no parent. *)
Definition sameResolution (viewport : Viewport) (a b : Placed) : Prop :=
  sameBox a b
  ∧ ∀ R, (truthy (rt_parentId (el_runtime a)) = None →
          R = viewportRect viewport) →
         el_runtime (finalize viewport a R)
         = el_runtime (finalize viewport b R).

Definition sameRuntime (e e' : LayoutElement) : Prop :=
  el_runtime e = el_runtime e'.

Definition sameRuntimes (m m' : gmap string LayoutElement) : Prop :=
  ∀ id, option_Forall2 sameRuntime (m !! id) (m' !! id).

(** Two runs fail alike or return related values. *)
Definition sameOutcome {A} (R : A → A → Prop) (r r' : result A) : Prop :=
  match r, r' with
  | Ok a, Ok b => R a b
  | Err e, Err e' => e = e'
  | _, _ => False
  end.

(** An edit that Pass 1 does not see on an element: same id, z-order and
    [isContainer], same estimated rectangle; the layout may differ only on
    an element that Pass 2 leaves without a parent. *)
Definition estimateKeepingEdit (elements : list LayoutElement)
    (viewport : Viewport) (el el' : LayoutElement) : Prop :=
  el_id el' = el_id el
  ∧ lc_zIndex (el_layout el') = lc_zIndex (el_layout el)
  ∧ lc_isContainer (el_layout el') = lc_isContainer (el_layout el)
  ∧ el_runtime (estimate viewport el') = el_runtime (estimate viewport el)
  ∧ (el_layout el' = el_layout el
     ∨ truthy
         (rt_parentId
            (el_runtime
               (assignParent (estimateAll elements viewport)
                  (estimate viewport el)))) = None).

(** [{ ...el, layout: { ...el.layout, ...newLayout } }] *)
Definition patched (el : LayoutElement) (newLayout : LayoutPatch)
    : LayoutElement :=
  mkElement (el_id el) (el_type el) (el_name el)
    (applyPatch (el_layout el) newLayout) (el_runtime el).

(** The output of Scenario A. *)
Definition scenarioOut : list LayoutElement :=
  [set_runtime scenarioC
     (Some (mkRuntime (num 0) (num 0) (num 640) (num 400) None));
   set_runtime scenarioD
     (Some (mkRuntime (num 10) (num 10) (num 50) (num 50) (Some "C")))].

(** ** Zoom: the [scale] state of [App.tsx] *)

(** [a / b] for a positive [a]; [None] is [Infinity], the quotient by 0
    (exact rationals have no negative zero). *)
Definition divPositive (a b : Qc) : option Qc :=
  if bool_decide (b = 0) then None else Some (a / b).

(** [Math.min(x, y)] where [x] may be [Infinity]. *)
Definition mathMinInf (x : option Qc) (y : Qc) : Qc :=
  match x with
  | Some x => mathMin x y
  | None => y
  end.

(** [handleFitCanvas]: the scale after the call. [workspace] holds
    [clientWidth] and [clientHeight] of [workspaceRef.current], [None] when
    the ref is empty. *)
Definition handleFitCanvas (workspace : option (Qc * Qc))
    (viewport : Viewport) (scale : Qc) : Qc :=
  match workspace with
  | None => scale
  | Some (clientWidth, clientHeight) =>
      let padding := num 80 in
      let availableW := clientWidth - padding in
      let availableH := clientHeight - padding in
      if bool_decide (0 < availableW) && bool_decide (0 < availableH)
      then
        let scaleX := divPositive availableW (vp_width viewport) in
        let scaleY := divPositive availableH (vp_height viewport) in
        let newScale := mathMinInf scaleX (mathMinInf scaleY (num 1)) in
        mathMax (num 1 / num 10) newScale
      else scale
  end.

(** What changes [scale]: the fit button (and the fit on start), the two
    zoom buttons and the reset button. *)
Inductive ZoomAction :=
  | FitCanvas (workspace : option (Qc * Qc)) (viewport : Viewport)
  | ZoomOut
  | ZoomIn
  | ZoomReset.

Definition zoomStep (scale : Qc) (a : ZoomAction) : Qc :=
  match a with
  | FitCanvas workspace viewport => handleFitCanvas workspace viewport scale
  | ZoomOut => mathMax (num 2 / num 10) (scale - num 1 / num 10)
  | ZoomIn => mathMin (num 2) (scale + num 1 / num 10)
  | ZoomReset => num 1
  end.

(** [useState(1)] followed by the actions in order. *)
Definition scaleAfter (actions : list ZoomAction) : Qc :=
  foldl zoomStep (num 1) actions.

(** ** Layers: [LayerPanel.tsx] and [handleLayerReorder] of [App.tsx] *)

(** [(b.layout.zIndex || 0) - (a.layout.zIndex || 0)] *)
Definition layerCompare (a b : LayoutElement) : Qc := canvasZ b - canvasZ a.

(** [[...elements].sort(...)]: the rows of the panel, top first. *)
Definition sortedElements (elements : list LayoutElement)
    : list LayoutElement :=
  sort layerCompare elements.

(** [handleDrop]: the ids handed to [onReorder], [None] when the handler
    returns before the call. The two [splice] calls take the dragged row
    out and put it back at the index the target row had. *)
Definition handleDrop (draggedId targetId : string)
    (elements : list LayoutElement) : option (list string) :=
  if bool_decide (draggedId = targetId) then None
  else
    match list_find (λ el, el_id el = draggedId) (sortedElements elements),
          list_find (λ el, el_id el = targetId) (sortedElements elements)
    with
    | Some (fromIndex, movedItem), Some (toIndex, _) =>
        let newList := delete fromIndex (sortedElements elements) in
        Some (el_id <$> (take toIndex newList
                           ++ movedItem :: drop toIndex newList))
    | _, _ => None
    end.

(** [sortedIds.indexOf(id)], [None] for [-1]. *)
Definition indexOf (id : string) (sortedIds : list string) : option nat :=
  fst <$> list_find (λ x, x = id) sortedIds.

(** The function [handleLayerReorder] maps over [prev]:
    [{ ...el, layout: { ...el.layout, zIndex: total - index } }], or [el]
    when [indexOf] is [-1]; [total] is [sortedIds.length]. *)
Definition reordered (sortedIds : list string) (el : LayoutElement)
    : LayoutElement :=
  match indexOf (el_id el) sortedIds with
  | None => el
  | Some index =>
      patched el
        (mkPatch None None None None
           (Some (Some (num (Z.of_nat (length sortedIds) - Z.of_nat index))))
           None None None)
  end.

(** The state updater of [handleLayerReorder]. *)
Definition handleLayerReorder (sortedIds : list string)
    (prev : list LayoutElement) (viewport : Viewport)
    : result (list LayoutElement) :=
  let updated := map (reordered sortedIds) prev in
  calculateRuntimePositions updated viewport.

(** The order of a list of ids: [x] is listed no later than [y]. *)
Definition listedBefore (sortedIds : list string) (x y : string) : Prop :=
  ∃ i j, indexOf x sortedIds = Some i ∧ indexOf y sortedIds = Some j
         ∧ (i ≤ j)%nat.

(** A chain of parents: [chainK] in [chainP] in [chainG], which is a root
    element. *)
Definition chainG : LayoutElement := box "G" 100 100 600 500 1 None.
Definition chainP : LayoutElement := box "P" 10 10 400 300 2 None.
Definition chainK : LayoutElement := box "K" 100 100 50 50 3 None.

(** ** Parent chains *)

(** The parent pointer of the table of Pass 2: [Some None] for an element
    without a (truthy) [parentId], [Some (Some pid)] for a child of [pid],
    [None] for an id the table does not have. *)
Definition parentIn (withParents : list Placed) (id : string)
    : option (option string) :=
  (λ el, truthy (rt_parentId (el_runtime el))) <$> findById withParents id.

(** The parent pointer of an output list, read from the first element with
    the id. *)
Definition parentOf (out : list LayoutElement) (id : string)
    : option (option string) :=
  (λ e, r ← el_runtime e; truthy (rt_parentId r))
  <$> List.find (λ e, bool_decide (el_id e = id)) out.

(** Following the parent pointers from [id] ends at an element without a
    parent: [id] is on no cycle of parents. *)
Inductive reachesRoot (parent : string → option (option string))
    : string → Prop :=
  | reachesRoot_here id :
      parent id = Some None → reachesRoot parent id
  | reachesRoot_step id pid :
      parent id = Some (Some pid) → reachesRoot parent pid →
      reachesRoot parent id.

(** The same in exactly [n] steps. *)
Fixpoint reachesRootIn (parent : string → option (option string))
    (n : nat) (id : string) : Prop :=
  match n with
  | O => parent id = Some None
  | S n' => ∃ pid, parent id = Some (Some pid) ∧ reachesRootIn parent n' pid
  end.

(** Each id of the list is followed by its parent. *)
Definition parentChain (parent : string → option (option string))
    (l : list string) : Prop :=
  ∀ i a b, l !! i = Some a → l !! S i = Some b → parent a = Some (Some b).

(** An entry of [finalMap] computed against the entry of its parent, or
    against the viewport when it has no parent. *)
Definition properEntry (viewport : Viewport) (withParents : list Placed)
    (m : gmap string LayoutElement) (id : string) (e : LayoutElement)
    : Prop :=
  ∃ el, findById withParents id = Some el
    ∧ match truthy (rt_parentId (el_runtime el)) with
      | None => e = finalize viewport el (viewportRect viewport)
      | Some pid =>
          ∃ p, m !! pid = Some p
               ∧ e = finalize viewport el (parentRectOf viewport (Some p))
      end.

(** Every entry of an id on no cycle was computed against its parent's
    entry. *)
Definition proper (viewport : Viewport) (withParents : list Placed)
    (m : gmap string LayoutElement) : Prop :=
  ∀ id e, m !! id = Some e → reachesRoot (parentIn withParents) id →
    properEntry viewport withParents m id e.

(** * Properties *)

Lemma num_100_ne : num 100 ≠ 0.
Proof. apply (bool_decide_unpack _). by vm_compute. Qed.

Lemma num_2_ne : num 2 ≠ 0.
Proof. apply (bool_decide_unpack _). by vm_compute. Qed.

(** Closed goals over concrete inputs are decided by evaluation. *)
Ltac by_evaluation := apply (bool_decide_unpack _); vm_compute; exact I.

(** ** Unit resolver and anchor transform *)

(** C2. The forward transform is the three anchor formulas over the resolved
    length [L]: origin + L at the start anchor, origin + size - L - S at the
    end anchor, origin + size/2 + L - S/2 at the center anchor, the reference
    rectangle being the viewport at the origin for [vw]/[vh] and the parent
    rectangle for every other unit. *)
Theorem forward_anchor_formulas (val : LayoutValue) (axis : PosAxis)
    (size : Qc) (viewport : Viewport) (parentRect : Rect) :
  let L := resolveLength val viewport parentRect in
  let R := if bool_decide (lv_unit val = VW ∨ lv_unit val = VH)
           then mkRect 0 0 (vp_width viewport) (vp_height viewport)
           else parentRect in
  convertOffsetToAbsolute val (startAnchor axis) axis size viewport parentRect
    = originAlong axis R + L
  ∧ convertOffsetToAbsolute val (endAnchor axis) axis size viewport parentRect
    = originAlong axis R + sizeAlong axis R - L - size
  ∧ convertOffsetToAbsolute val Center axis size viewport parentRect
    = originAlong axis R + sizeAlong axis R / num 2 + L - size / num 2.
Proof.
  destruct val as [v u]; simpl.
  unfold convertOffsetToAbsolute, refRectOf, viewportRect, isGlobal; simpl.
  destruct u, axis; case_bool_decide as Hu; simpl;
    try (exfalso; destruct Hu; congruence);
    try (exfalso; apply Hu; auto; fail);
    repeat split; reflexivity.
Qed.

(** C6. With a percent unit whose reference dimension is 0, the conversion
    gives 0 in both directions. *)
Theorem zero_reference_gives_zero (v pixels absPos size : Qc) (anchor : Anchor)
    (axis : PosAxis) (u : UnitType) (viewport : Viewport)
    (parentRect : Rect) :
  referenceDimension u viewport parentRect = Some 0 →
  resolveLength (mkValue v u) viewport parentRect = 0
  ∧ fromPixels pixels u viewport parentRect = 0
  ∧ convertAbsoluteToOffset absPos anchor axis size u viewport parentRect
    = 0.
Proof.
  intros Hd.
  unfold resolveLength, fromPixels, convertAbsoluteToOffset.
  destruct u; simpl in *; simplify_eq; rewrite ?Hd.
  all: rewrite bool_decide_eq_true_2 by reflexivity.
  all: repeat split; ring.
Qed.

Lemma zero_reference_gives_zero_witness :
  resolveLength (mkValue (num 30) PERCENT_PARENT_W) vp1280 emptyRect = 0
  ∧ fromPixels (num 12) PERCENT_PARENT_W vp1280 emptyRect = 0
  ∧ convertAbsoluteToOffset (num 12) Right AxisX (num 4) PERCENT_PARENT_W
      vp1280 emptyRect = 0.
Proof. apply zero_reference_gives_zero. reflexivity. Defined.




(** ** The sort *)

Section SortFacts.
Context {A : Type} (cmp : A → A → Qc).

Lemma sort_insert_perm a l : sort_insert cmp a l ≡ₚ a :: l.
Proof.
  induction l as [|b l IH]; simpl; [done|].
  case_bool_decide; [|done].
  rewrite IH. apply Permutation_swap.
Qed.

Lemma sort_perm l : sort cmp l ≡ₚ l.
Proof.
  induction l as [|a l IH]; simpl; [done|].
  by rewrite sort_insert_perm, IH.
Qed.

Section Sorted.
Context (before : A → A → Prop).
Hypothesis cmp_before : ∀ a b, ¬ 0 < cmp a b ↔ before a b.
Hypothesis before_total : ∀ a b, before a b ∨ before b a.
Hypothesis before_trans : ∀ a b c, before a b → before b c → before a c.

Lemma sort_insert_sorted a l :
  StronglySorted before l → StronglySorted before (sort_insert cmp a l).
Proof.
  induction 1 as [|b l Hl IH Hb]; simpl.
  - repeat constructor.
  - case_bool_decide as Hab.
    + constructor; [done|].
      rewrite sort_insert_perm. constructor; [|done].
      destruct (before_total a b) as [Hba|Hba]; [|done].
      apply cmp_before in Hba. done.
    + apply cmp_before in Hab.
      constructor; [by constructor|].
      constructor; [done|].
      eapply Forall_impl; [exact Hb|]. eauto.
Qed.

Lemma sort_sorted l : StronglySorted before (sort cmp l).
Proof.
  induction l; simpl; [constructor|]. by apply sort_insert_sorted.
Qed.
End Sorted.

Section Stable.
Context (P : A → Prop) `{!∀ a, Decision (P a)}.
Hypothesis tie : ∀ a b, P a → P b → ¬ 0 < cmp a b.

Lemma sort_insert_stable a l :
  filter P (sort_insert cmp a l) = filter P (a :: l).
Proof.
  induction l as [|b l IH]; simpl; [done|].
  case_bool_decide as Hab; [|done].
  rewrite (filter_cons _ b), IH, !filter_cons.
  destruct (decide (P a)) as [Ha|], (decide (P b)) as [Hb|];
    try done.
  destruct (tie a b Ha Hb Hab).
Qed.

Lemma sort_stable l : filter P (sort cmp l) = filter P l.
Proof.
  induction l as [|a l IH]; simpl; [done|].
  by rewrite sort_insert_stable, !filter_cons, IH.
Qed.
End Stable.
End SortFacts.

Lemma Qc_sub_pos (x y : Qc) : 0 < y - x ↔ x < y.
Proof. unfold Qcminus. symmetry. apply Qclt_minus_iff. Qed.

Lemma Qc_sub_zero (x y : Qc) : y - x = 0 ↔ x = y.
Proof.
  split; intros H.
  - replace y with ((y - x) + x) by ring. rewrite H. ring.
  - subst. ring.
Qed.

Lemma Qc_trichotomy (x y : Qc) : x < y ∨ x = y ∨ y < x.
Proof.
  destruct (Qclt_le_dec x y) as [|Hle]; [by left|].
  destruct (Qcle_lt_or_eq _ _ Hle); auto.
Qed.

(** The comparator reads the keys of the specified order. *)
Lemma orderKeys_read e : orderKeys e = (zOf e, areaOf e).
Proof. reflexivity. Qed.

Lemma compareParents_before a b :
  ¬ 0 < compareParents a b ↔ parentBefore a b.
Proof.
  unfold compareParents, parentBefore. rewrite !orderKeys_read. simpl.
  case_bool_decide as Hz.
  - rewrite Qc_sub_pos. rewrite Qc_sub_zero in Hz.
    destruct (Qc_trichotomy (zOf a) (zOf b)) as [Hlt|[Heq|Hgt]].
    + split; [done|]. intros [Hgt|[Heq _]]; [|done].
      destruct (Qclt_not_le _ _ Hlt). by apply Qclt_le_weak.
    + done.
    + split; [by left|]. intros _ Hlt.
      destruct (Qclt_not_le _ _ Hlt). by apply Qclt_le_weak.
  - rewrite Qc_sub_zero in Hz.
    rewrite Qc_sub_pos, <-Qcle_ngt. split; [by right|].
    intros [Hlt|[_ ?]]; [|done].
    rewrite Hz in Hlt. destruct (Qclt_not_eq _ _ Hlt). done.
Qed.

Lemma parentBefore_total a b : parentBefore a b ∨ parentBefore b a.
Proof.
  unfold parentBefore. rewrite !orderKeys_read. simpl.
  destruct (Qc_trichotomy (zOf a) (zOf b)) as [Hlt|[Heq|Hgt]]; auto.
  destruct (Qclt_le_dec (areaOf b) (areaOf a)) as [Hlt|Hle].
  - right; right. split; [done|]. by apply Qclt_le_weak.
  - left; by right.
Qed.

Lemma parentBefore_trans a b c :
  parentBefore a b → parentBefore b c → parentBefore a c.
Proof.
  unfold parentBefore. rewrite !orderKeys_read. simpl.
  intros [H1|[E1 H1]] [H2|[E2 H2]].
  - left. by eapply Qclt_trans.
  - left. by rewrite <-E2.
  - left. by rewrite E1.
  - right. split; [congruence|]. by eapply Qcle_trans.
Qed.

Lemma isPotentialParent_spec child p :
  isPotentialParent child p = true ↔
    el_id p ≠ el_id child
    ∧ lc_isContainer (el_layout p) ≠ Some false
    ∧ insideClosed child p.
Proof.
  unfold isPotentialParent, insideClosed, centerX, centerY.
  repeat case_bool_decide; simpl; intuition congruence.
Qed.

(** ** Pass 2: containment *)

Lemma potentialParents_perm est child :
  potentialParents est child
  ≡ₚ List.filter (isPotentialParent child) est.
Proof. apply sort_perm. Qed.

Lemma elem_of_potentialParents est child p :
  p ∈ potentialParents est child ↔
    p ∈ est
    ∧ el_id p ≠ el_id child
    ∧ lc_isContainer (el_layout p) ≠ Some false
    ∧ insideClosed child p.
Proof.
  rewrite potentialParents_perm, list_elem_of_In, filter_In,
    <-list_elem_of_In.
  by rewrite isPotentialParent_spec.
Qed.

Lemma assignParent_parentId est child :
  rt_parentId (el_runtime (assignParent est child))
  = match potentialParents est child with
    | p :: _ => Some (el_id p)
    | [] => rt_parentId (el_runtime child)
    end.
Proof. unfold assignParent. by destruct (potentialParents est child). Qed.

Lemma NoDup_fmap_elem_eq {A B} (f : A → B) (l : list A) x y :
  NoDup (f <$> l) → x ∈ l → y ∈ l → f x = f y → x = y.
Proof.
  induction l as [|a l IH]; intros Hnd Hx Hy Hf; [by inv Hx|].
  rewrite fmap_cons in Hnd. apply NoDup_cons in Hnd as [Ha Hnd].
  apply elem_of_cons in Hx as [->|Hx], Hy as [->|Hy]; auto.
  - destruct Ha. rewrite Hf. by apply list_elem_of_fmap_2.
  - destruct Ha. rewrite <-Hf. by apply list_elem_of_fmap_2.
Qed.

Lemma estimateAll_ids elements viewport :
  el_id <$> estimateAll elements viewport = el_id <$> elements.
Proof.
  unfold estimateAll. induction elements; simpl; [done|]. by f_equal.
Qed.

(** C3. In Pass 2 the candidate parents of [child] are exactly the other
    estimated elements whose [isContainer] is not [false] and whose
    estimated rectangle contains the centre of [child], bounds included; with
    no candidate the parent is root; the element chosen as parent is such a
    candidate, so an element with [isContainer: false] is never chosen, and
    when ids are unique no such element carries the chosen id. *)
Theorem containment_candidates (elements : list LayoutElement)
    (viewport : Viewport) (child : Placed) :
  let est := estimateAll elements viewport in
  child ∈ est →
  (∀ p, p ∈ potentialParents est child ↔
          p ∈ est
          ∧ el_id p ≠ el_id child
          ∧ lc_isContainer (el_layout p) ≠ Some false
          ∧ insideClosed child p)
  ∧ (potentialParents est child = [] →
     rt_parentId (el_runtime (assignParent est child)) = None)
  ∧ (∀ pid, rt_parentId (el_runtime (assignParent est child)) = Some pid →
       ∃ p, p ∈ est ∧ el_id p = pid
            ∧ el_id p ≠ el_id child
            ∧ lc_isContainer (el_layout p) ≠ Some false
            ∧ insideClosed child p)
  ∧ (NoDup (el_id <$> elements) →
     ∀ q, q ∈ est → lc_isContainer (el_layout q) = Some false →
          rt_parentId (el_runtime (assignParent est child))
          ≠ Some (el_id q)).
Proof.
  intros est Hchild.
  assert (Hroot : rt_parentId (el_runtime child) = None).
  { apply list_elem_of_fmap in Hchild as (el & -> & _). done. }
  assert (Hsel : ∀ pid,
    rt_parentId (el_runtime (assignParent est child)) = Some pid →
    ∃ p, p ∈ potentialParents est child ∧ el_id p = pid).
  { intros pid. rewrite assignParent_parentId.
    destruct (potentialParents est child) as [|p l]; [congruence|].
    intros [= <-]. exists p. split; [left|done]. }
  split; [apply elem_of_potentialParents|].
  split; [intros Hnil; by rewrite assignParent_parentId, Hnil|].
  split.
  - intros pid (p & Hp & Hid)%Hsel.
    apply elem_of_potentialParents in Hp as (? & ? & ? & ?).
    exists p. auto.
  - intros Hnd q Hq Hfalse (p & Hp & Hid)%Hsel.
    apply elem_of_potentialParents in Hp as (Hp & _ & Hc & _).
    assert (p = q) as ->; [|congruence].
    eapply (NoDup_fmap_elem_eq el_id); [|done..].
    fold est. unfold est. by rewrite estimateAll_ids.
Qed.

Lemma containment_candidates_witness :
  rt_parentId
    (el_runtime
       (assignParent (estimateAll [scenarioLid; scenarioC; scenarioD] vp1280)
          (estimate vp1280 scenarioD)))
  ≠ Some (el_id (estimate vp1280 scenarioLid)).
Proof.
  apply (containment_candidates [scenarioLid; scenarioC; scenarioD] vp1280
           (estimate vp1280 scenarioD)).
  - apply list_elem_of_In. simpl. auto.
  - by_evaluation.
  - apply list_elem_of_In. simpl. auto.
  - reflexivity.
Defined.

(** C4. The sorted candidates are the candidates, ordered by z descending
    (a missing z read as 0) and then by area ascending, the keys read from
    the element's fields; that order is total and transitive; candidates
    equal in both keys keep their input order; the parent is the first of
    the sorted candidates. Evaluated through the whole pipeline: with equal
    z the child of a 500x500 and a 300x300 container goes to the 300x300
    one, whichever comes first in the input; a higher z wins over a smaller
    area; the smaller area wins over the smaller width; a container without
    z wins over one with z = -1; and of two candidates equal in both keys
    the one that comes first in the input wins. *)
Theorem parent_order (est : list Placed) (child : Placed) :
  let candidates := List.filter (isPotentialParent child) est in
  let sorted := potentialParents est child in
  sorted ≡ₚ candidates
  ∧ StronglySorted parentBefore sorted
  ∧ (∀ a b, parentBefore a b ∨ parentBefore b a)
  ∧ (∀ a b c, parentBefore a b → parentBefore b c → parentBefore a c)
  ∧ (∀ k, filter (λ e, orderKeys e = k) sorted
          = filter (λ e, orderKeys e = k) candidates)
  ∧ rt_parentId (el_runtime (assignParent est child))
    = match sorted with
      | parent :: _ => Some (el_id parent)
      | [] => rt_parentId (el_runtime child)
      end
  ∧ resolvedParents
      (calculateRuntimePositions [tieBig; tieSmall; tieKid] vp1280)
    = Ok [Some None; Some (Some "big"); Some (Some "small")]
  ∧ resolvedParents
      (calculateRuntimePositions [tieSmall; tieBig; tieKid] vp1280)
    = Ok [Some (Some "big"); Some None; Some (Some "small")]
  ∧ resolvedParents (calculateRuntimePositions zWins vp1280)
    = Ok [Some None; Some (Some "big"); Some (Some "big")]
  ∧ resolvedParents (calculateRuntimePositions areaNotWidth vp1280)
    = Ok [Some None; Some (Some "wide"); Some (Some "wide")]
  ∧ resolvedParents (calculateRuntimePositions missingZ vp1280)
    = Ok [Some None; Some (Some "plain"); Some (Some "plain")]
  ∧ resolvedParents
      (calculateRuntimePositions [twinA; twinB; tieKid] vp1280)
    = Ok [Some (Some "b"); Some (Some "a"); Some (Some "a")]
  ∧ resolvedParents
      (calculateRuntimePositions [twinB; twinA; tieKid] vp1280)
    = Ok [Some (Some "a"); Some (Some "b"); Some (Some "b")].
Proof.
  intros candidates sorted.
  split; [apply potentialParents_perm|].
  split.
  { apply sort_sorted.
    - apply compareParents_before.
    - apply parentBefore_total.
    - apply parentBefore_trans. }
  split; [apply parentBefore_total|].
  split; [apply parentBefore_trans|].
  split.
  { intros k. apply sort_stable.
    intros a b Ha Hb.
    apply compareParents_before. right.
    rewrite Ha, Hb. split; [done|apply Qcle_refl]. }
  split; [apply assignParent_parentId|].
  repeat split; by_evaluation.
Qed.

(** ** Pass 3: finalization *)

Section FinalizeFacts.
Variable viewport : Viewport.
Variable withParents : list Placed.

Local Abbreviation calc := (calculateElement viewport withParents).
Local Abbreviation find := (findById withParents).
Local Abbreviation finalized := (finalized viewport withParents).

Lemma findById_Some id el :
  find id = Some el → el ∈ withParents ∧ el_id el = id.
Proof.
  unfold findById. intros [Hin Hid]%find_some.
  apply list_elem_of_In in Hin. by apply bool_decide_eq_true in Hid.
Qed.

Lemma findById_is_Some id :
  id ∈ el_id <$> withParents → is_Some (find id).
Proof.
  intros (el & -> & Hin)%list_elem_of_fmap.
  destruct (find (el_id el)) eqn:Hf; [by eexists|].
  unfold findById in Hf.
  apply list_elem_of_In in Hin.
  pose proof (find_none _ _ Hf _ Hin) as Hn. simpl in Hn.
  by rewrite bool_decide_eq_true_2 in Hn.
Qed.

Lemma calculateElement_unfold fuel id stack m :
  calc (S fuel) id stack m =
    match m !! id with
    | Some e => Ok (Some e, m)
    | None =>
        if bool_decide (id ∈ stack)
        then Ok (as_layout <$> find id, m)
        else
          match find id with
          | None => Err TypeError
          | Some el =>
              '(parentRect, m') ←
                match truthy (rt_parentId (el_runtime el)) with
                | Some pid =>
                    '(parentEl, m1) ← calc fuel pid (stack ++ [id]) m;
                    Ok (parentRectOf viewport parentEl, m1)
                | None => Ok (viewportRect viewport, m)
                end;
              let res := finalize viewport el parentRect in
              Ok (Some res, <[id := res]> m')
          end
    end.
Proof. reflexivity. Qed.

Lemma stack_bounded stack :
  NoDup stack → stack ⊆ el_id <$> withParents →
  (length stack ≤ length withParents)%nat.
Proof.
  intros Hnd Hsub.
  rewrite <-(length_fmap el_id withParents).
  apply submseteq_length, NoDup_submseteq; auto.
Qed.

Lemma calculateElement_total fuel id stack m :
  closedParents withParents →
  NoDup stack → stack ⊆ el_id <$> withParents →
  id ∈ el_id <$> withParents →
  (length withParents < fuel + length stack)%nat →
  ∃ r m', calc fuel id stack m = Ok (r, m').
Proof.
  intros Hclosed. revert id stack m.
  induction fuel as [|fuel IH]; intros id stack m Hnd Hsub Hid Hlen.
  { pose proof (stack_bounded stack Hnd Hsub). lia. }
  rewrite calculateElement_unfold.
  destruct (m !! id); [by eauto|].
  case_bool_decide as Hstack; [by eauto|].
  destruct (findById_is_Some id Hid) as [el Hel]. rewrite Hel.
  destruct (truthy _) as [pid|] eqn:Hpid; [|by simpl; eauto].
  apply findById_Some in Hel as [Hel _].
  destruct (IH pid (stack ++ [id]) m) as (r & m' & ->).
  - apply NoDup_app. split; [done|]. split; [|apply NoDup_singleton].
    intros x Hx ->%list_elem_of_singleton. done.
  - intros x [Hx| ->%list_elem_of_singleton]%elem_of_app; auto.
  - by eapply Hclosed.
  - rewrite length_app. simpl. lia.
  - simpl. eauto.
Qed.

Lemma calculateElement_fuel_mono fuel fuel' id stack m r :
  calc fuel id stack m = Ok r → (fuel ≤ fuel')%nat →
  calc fuel' id stack m = Ok r.
Proof.
  revert fuel' id stack m r.
  induction fuel as [|fuel IH]; intros fuel' id stack m r Hr Hle;
    [done|].
  destruct fuel' as [|fuel']; [lia|].
  rewrite calculateElement_unfold in *.
  destruct (m !! id); [done|].
  case_bool_decide; [done|].
  destruct (find id) as [el|]; [|done].
  destruct (truthy _) as [pid|]; [|done].
  destruct (calc fuel pid (stack ++ [id]) m) as [[pe m1]|] eqn:Hrec;
    [|done].
  rewrite (IH fuel' _ _ _ _ Hrec) by lia. done.
Qed.

Lemma calculateElement_cycle fuel id stack m :
  m !! id = None → id ∈ stack →
  calc (S fuel) id stack m = Ok (as_layout <$> find id, m).
Proof.
  intros Hm Hs. rewrite calculateElement_unfold, Hm.
  by rewrite bool_decide_eq_true_2.
Qed.

Lemma finalized_empty : finalized ∅.
Proof. intros id e. by rewrite lookup_empty. Qed.

Lemma calculateElement_finalized fuel id stack m r m' :
  finalized m → calc fuel id stack m = Ok (r, m') → finalized m'.
Proof.
  revert id stack m r m'.
  induction fuel as [|fuel IH]; intros id stack m r m' Hm Hc; [done|].
  rewrite calculateElement_unfold in Hc.
  destruct (m !! id); [by simplify_eq|].
  case_bool_decide; [by simplify_eq|].
  destruct (find id) as [el|] eqn:Hel; [|done].
  destruct (truthy _) as [pid|].
  - destruct (calc fuel pid (stack ++ [id]) m) as [[pe m1]|] eqn:Hrec;
      [|done].
    simpl in Hc. simplify_eq.
    intros k e. destruct (decide (id = k)) as [->|Hne].
    + rewrite lookup_insert_eq. intros [= <-]. eauto.
    + rewrite lookup_insert_ne by done. by eapply IH.
  - simpl in Hc. simplify_eq.
    intros k e. destruct (decide (id = k)) as [->|Hne].
    + rewrite lookup_insert_eq. intros [= <-]. eauto.
    + rewrite lookup_insert_ne by done. apply Hm.
Qed.

Lemma calculateElement_dom fuel id stack m r m' :
  calc fuel id stack m = Ok (r, m') →
  (∀ k, is_Some (m !! k) → is_Some (m' !! k))
  ∧ (id ∉ stack → is_Some (m' !! id)).
Proof.
  revert id stack m r m'.
  induction fuel as [|fuel IH]; intros id stack m r m' Hc; [done|].
  rewrite calculateElement_unfold in Hc.
  destruct (m !! id) eqn:Hid; [by simplify_eq|].
  case_bool_decide; [by simplify_eq|].
  destruct (find id) as [el|] eqn:Hel; [|done].
  assert (∀ (m1 : gmap string LayoutElement) res,
    (∀ k, is_Some (m !! k) → is_Some (m1 !! k)) →
    (∀ k, is_Some (m !! k) → is_Some (<[id:=res]> m1 !! k))
    ∧ (id ∉ stack → is_Some (<[id:=res]> m1 !! id))) as Hins.
  { intros m1 res Hsub. split.
    - intros k Hk. destruct (decide (id = k)) as [->|Hne].
      + by rewrite lookup_insert_eq.
      + rewrite lookup_insert_ne by done. auto.
    - by rewrite lookup_insert_eq. }
  destruct (truthy _) as [pid|].
  - destruct (calc fuel pid (stack ++ [id]) m) as [[pe m1]|] eqn:Hrec;
      [|done].
    simpl in Hc. simplify_eq. apply Hins. by eapply IH.
  - simpl in Hc. simplify_eq. by apply Hins.
Qed.

(** The body of the [forEach] of Pass 3. *)
Lemma finalizeAll_from fuel l m0 :
  closedParents withParents →
  (length withParents < fuel)%nat →
  l ⊆ withParents →
  finalized m0 →
  ∃ m,
    forEachM
      (λ m el, '(_, m') ← calc fuel (el_id el) [] m; Ok m') l m0 = Ok m
    ∧ finalized m
    ∧ (∀ k, is_Some (m0 !! k) → is_Some (m !! k))
    ∧ (∀ el, el ∈ l → is_Some (m !! el_id el)).
Proof.
  intros Hclosed Hfuel. revert m0.
  induction l as [|a l IH]; intros m0 Hsub Hm0; simpl.
  { exists m0. split_and!; [done..|]. intros el Hel. by inv Hel. }
  destruct (calculateElement_total fuel (el_id a) [] m0)
    as (r & m1 & Hc); auto.
  { constructor. }
  { intros x Hx. by inv Hx. }
  { apply list_elem_of_fmap_2, Hsub. left. }
  { simpl. lia. }
  rewrite Hc. simpl.
  destruct (calculateElement_dom _ _ _ _ _ _ Hc) as [Hdom Hid].
  destruct (IH m1) as (m & Hm & Hfin & Hmono & Hall).
  { intros x Hx. apply Hsub. by right. }
  { by eapply calculateElement_finalized. }
  exists m. split_and!; [done..|auto|].
  intros el [->|Hel]%elem_of_cons; [|auto].
  apply Hmono, Hid. intros Hx. by inv Hx.
Qed.

Lemma finalizeAll_spec fuel :
  closedParents withParents →
  (length withParents < fuel)%nat →
  ∃ m, finalizeAll viewport withParents fuel = Ok m
       ∧ finalized m
       ∧ (∀ el, el ∈ withParents → is_Some (m !! el_id el)).
Proof.
  intros Hclosed Hfuel.
  destruct (finalizeAll_from fuel withParents ∅)
    as (m & Hm & Hfin & _ & Hall); auto using finalized_empty.
  exists m. auto.
Qed.
End FinalizeFacts.

(** ** The pipeline *)

Lemma set_runtime_estimate {R} viewport (el : LayoutElement) (r : R) :
  set_runtime (estimate viewport el) r = set_runtime el r.
Proof. done. Qed.

Lemma set_runtime_assignParent {R} est (child : Placed) (r : R) :
  set_runtime (assignParent est child) r = set_runtime child r.
Proof. unfold assignParent. by destruct (potentialParents est child). Qed.

Lemma el_id_set_runtime {R R'} (el : Element R) (r : R') :
  el_id (set_runtime el r) = el_id el.
Proof. done. Qed.

Lemma el_id_assignParent est child :
  el_id (assignParent est child) = el_id child.
Proof.
  by rewrite <-(el_id_set_runtime _ ()), set_runtime_assignParent.
Qed.

Lemma assignParents_ids est :
  el_id <$> assignParents est = el_id <$> est.
Proof.
  unfold assignParents. rewrite <-list_fmap_compose.
  apply list_fmap_ext. intros i x _. apply el_id_assignParent.
Qed.

Lemma withParents_ids elements viewport :
  el_id <$> assignParents (estimateAll elements viewport)
  = el_id <$> elements.
Proof. by rewrite assignParents_ids, estimateAll_ids. Qed.

Lemma truthy_Some o pid : truthy o = Some pid → o = Some pid.
Proof.
  destruct o as [s|]; simpl; [|done]. by case_bool_decide.
Qed.

Lemma withParents_closed elements viewport :
  closedParents (assignParents (estimateAll elements viewport)).
Proof.
  intros el pid (child & -> & Hchild)%list_elem_of_fmap Hpid%truthy_Some.
  rewrite assignParents_ids.
  rewrite assignParent_parentId in Hpid.
  destruct (potentialParents _ child) as [|p l] eqn:Hpp.
  - apply list_elem_of_fmap in Hchild as (e0 & -> & _). done.
  - injection Hpid as <-. apply list_elem_of_fmap_2.
    assert (p ∈ potentialParents (estimateAll elements viewport) child)
      as Hp by (rewrite Hpp; left).
    by apply elem_of_potentialParents in Hp as [? _].
Qed.

Lemma mapR_lookup (m : gmap string LayoutElement)
    (l : list LayoutElement) :
  (∀ el, el ∈ l → is_Some (m !! el_id el)) →
  ∃ out,
    mapR (λ el, match m !! el_id el with
                | Some e => Ok e
                | None => Err NonNullViolated
                end) l = Ok out
    ∧ Forall2 (λ el e, m !! el_id el = Some e) l out.
Proof.
  induction l as [|a l IH]; intros Hall; simpl.
  { exists []. by split. }
  destruct (Hall a) as [e He]; [left|]. rewrite He. simpl.
  destruct IH as (out & -> & Hout).
  { intros el Hel. apply Hall. by right. }
  exists (e :: out). split; [done|]. by constructor.
Qed.

(** The pipeline never fails, and each output element is the finalization
    of the first element of [withParents] that carries the id of the input
    element at that position. *)
Lemma calculateRuntimePositions_spec elements viewport :
  let withParents := assignParents (estimateAll elements viewport) in
  ∃ out,
    calculateRuntimePositions elements viewport = Ok out
    ∧ Forall2
        (λ el e, ∃ pel rect,
           findById withParents (el_id el) = Some pel
           ∧ e = finalize viewport pel rect)
        elements out.
Proof.
  intros withParents. unfold calculateRuntimePositions.
  fold withParents.
  destruct (finalizeAll_spec viewport withParents (S (length withParents)))
    as (m & -> & Hfin & Hall); [apply withParents_closed|lia|].
  simpl.
  destruct (mapR_lookup m elements) as (out & -> & Hout).
  { intros el Hel.
    assert (el_id el ∈ el_id <$> withParents) as Hid.
    { unfold withParents. rewrite withParents_ids.
      by apply list_elem_of_fmap_2. }
    apply list_elem_of_fmap in Hid as (pel & -> & Hpel). auto. }
  exists out. split; [done|].
  eapply Forall2_impl; [exact Hout|].
  intros el e He. by apply Hfin.
Qed.

Lemma findById_NoDup (withParents : list Placed) pel :
  NoDup (el_id <$> withParents) → pel ∈ withParents →
  findById withParents (el_id pel) = Some pel.
Proof.
  intros Hnd Hpel.
  destruct (findById_is_Some withParents (el_id pel)) as [q Hq].
  { by apply list_elem_of_fmap_2. }
  rewrite Hq. f_equal.
  apply findById_Some in Hq as [Hq Hid].
  by eapply (NoDup_fmap_elem_eq el_id).
Qed.

(** C8. Scenario A: on a 1280x800 viewport the container resolves to
    (0,0,640,400) at root, the Pass-1 centre of the child is (35,35), inside
    the container's estimated rectangle, the child's parent is the container
    and the child's final rectangle is (10,10,50,50). *)
Theorem scenario_A :
  calculateRuntimePositions [scenarioC; scenarioD] vp1280
  = Ok [set_runtime scenarioC
          (Some (mkRuntime (num 0) (num 0) (num 640) (num 400) None));
        set_runtime scenarioD
          (Some (mkRuntime (num 10) (num 10) (num 50) (num 50)
                   (Some (el_id scenarioC))))]
  ∧ centerX (el_runtime (estimate vp1280 scenarioD)) = num 35
  ∧ centerY (el_runtime (estimate vp1280 scenarioD)) = num 35
  ∧ isPotentialParent (estimate vp1280 scenarioD)
      (estimate vp1280 scenarioC) = true.
Proof. repeat split; by_evaluation. Qed.

(** With unique ids each output element is the input element at its
    position with [_runtime] set. *)
Lemma calculateRuntimePositions_frame elements viewport :
  NoDup (el_id <$> elements) →
  ∃ out,
    calculateRuntimePositions elements viewport = Ok out
    ∧ Forall2 (λ el e, ∃ r, e = set_runtime el (Some r)) elements out.
Proof.
  intros Hnd.
  destruct (calculateRuntimePositions_spec elements viewport)
    as (out & Hout & Hall).
  exists out. split; [done|].
  assert (Hfind : ∀ el, el ∈ elements →
    findById (assignParents (estimateAll elements viewport)) (el_id el)
    = Some (assignParent (estimateAll elements viewport)
              (estimate viewport el))).
  { intros el Hel.
    rewrite <-(el_id_set_runtime el ()), <-(set_runtime_estimate viewport),
      <-(set_runtime_assignParent (estimateAll elements viewport)),
      el_id_set_runtime.
    apply findById_NoDup; [by rewrite withParents_ids|].
    by apply list_elem_of_fmap_2, list_elem_of_fmap_2. }
  apply Forall2_same_length_lookup. split; [by eapply Forall2_length|].
  intros i el e Hi Ho.
  destruct (Forall2_lookup_lr _ _ _ _ _ _ Hall Hi Ho)
    as (pel & rect & Hpel & ->).
  rewrite Hfind in Hpel by (by eapply list_elem_of_lookup_2).
  injection Hpel as <-.
  unfold finalize.
  rewrite set_runtime_assignParent, set_runtime_estimate. eauto.
Qed.

(** C9. With unique ids the output has the length and order of the input,
    and each output element is the input element at its position with
    [_runtime] set: id, name, type and layout are unchanged. *)
Theorem output_frame (elements : list LayoutElement) (viewport : Viewport) :
  NoDup (el_id <$> elements) →
  ∃ out,
    calculateRuntimePositions elements viewport = Ok out
    ∧ length out = length elements
    ∧ Forall2
        (λ el e,
           el_id e = el_id el ∧ el_name e = el_name el
           ∧ el_type e = el_type el ∧ el_layout e = el_layout el
           ∧ ∃ r, e = set_runtime el (Some r))
        elements out.
Proof.
  intros Hnd.
  destruct (calculateRuntimePositions_frame elements viewport Hnd)
    as (out & Hout & Hall).
  exists out. split; [done|].
  split; [symmetry; by eapply Forall2_length|].
  eapply Forall2_impl; [exact Hall|].
  intros el e [r ->]. split_and!; try done. by exists r.
Qed.

Lemma output_frame_witness :
  ∃ out,
    calculateRuntimePositions [scenarioC; scenarioD] vp1280 = Ok out
    ∧ length out = length [scenarioC; scenarioD]
    ∧ Forall2
        (λ el e,
           el_id e = el_id el ∧ el_name e = el_name el
           ∧ el_type e = el_type el ∧ el_layout e = el_layout el
           ∧ ∃ r, e = set_runtime el (Some r))
        [scenarioC; scenarioD] out.
Proof. apply output_frame. by_evaluation. Defined.

(** No element of [withParents] is its own parent. *)
Lemma withParents_no_self elements viewport pel :
  pel ∈ assignParents (estimateAll elements viewport) →
  rt_parentId (el_runtime pel) ≠ Some (el_id pel).
Proof.
  intros (child & -> & Hchild)%list_elem_of_fmap.
  rewrite assignParent_parentId, el_id_assignParent.
  destruct (potentialParents _ child) as [|p l] eqn:Hpp.
  - apply list_elem_of_fmap in Hchild as (e0 & -> & _). done.
  - assert (p ∈ potentialParents (estimateAll elements viewport) child)
      as Hp by (rewrite Hpp; left).
    apply elem_of_potentialParents in Hp as (_ & Hne & _). congruence.
Qed.

(** C10. No output element is its own parent: every output element has a
    [_runtime], and its [parentId] is not the element's own id. *)
Theorem no_self_parent (elements : list LayoutElement)
    (viewport : Viewport) :
  ∃ out,
    calculateRuntimePositions elements viewport = Ok out
    ∧ Forall
        (λ e, ∃ r, el_runtime e = Some r ∧ rt_parentId r ≠ Some (el_id e))
        out.
Proof.
  destruct (calculateRuntimePositions_spec elements viewport)
    as (out & Hout & Hall).
  exists out. split; [done|].
  apply Forall_forall. intros e He.
  apply list_elem_of_lookup in He as [i Hi].
  destruct (Forall2_lookup_r _ _ _ _ _ Hall Hi)
    as (el & _ & pel & rect & Hpel & ->).
  eexists. split; [reflexivity|]. simpl.
  apply findById_Some in Hpel as [Hpel _].
  by eapply withParents_no_self.
Qed.

(** ** Idempotence *)

Lemma estimate_persisted viewport (a b : LayoutElement) :
  persisted a = persisted b → estimate viewport a = estimate viewport b.
Proof.
  destruct a, b. unfold persisted, set_runtime. simpl.
  intros [= -> -> -> ->]. done.
Qed.

Lemma mapR_ext_Forall2 {A B} (f : A → result B) (l k : list A) :
  Forall2 (λ a b, f a = f b) l k → mapR f l = mapR f k.
Proof. induction 1 as [|a b l k Hab _ IH]; simpl; [done|]. by rewrite Hab, IH. Qed.

(** The pipeline reads of its input only what is persisted: a [_runtime]
    already present is ignored. *)
Lemma calculateRuntimePositions_persisted elements elements' viewport :
  persisted <$> elements = persisted <$> elements' →
  calculateRuntimePositions elements viewport
  = calculateRuntimePositions elements' viewport.
Proof.
  intros Heq.
  assert (Hall : Forall2 (λ a b, persisted a = persisted b)
                   elements elements').
  { revert elements' Heq.
    induction elements as [|a l IH]; intros [|b k] Heq; try done.
    rewrite !fmap_cons in Heq. injection Heq as Hid Hty Hna Hla Hrest.
    constructor; [|auto].
    unfold persisted, set_runtime. congruence. }
  assert (Hest : estimateAll elements viewport
                 = estimateAll elements' viewport).
  { unfold estimateAll. clear Heq.
    induction Hall as [|a b l k Hab _ IH]; simpl; [done|].
    by rewrite (estimate_persisted viewport a b Hab), IH. }
  unfold calculateRuntimePositions. rewrite Hest.
  destruct (finalizeAll _ _ _) as [m|]; [|done]. simpl.
  apply mapR_ext_Forall2.
  eapply Forall2_impl; [exact Hall|].
  intros a b Hab.
  by rewrite <-(el_id_set_runtime a ()), <-(el_id_set_runtime b ()),
    (Hab : set_runtime a () = set_runtime b ()).
Qed.

(** C7, as stated, fails when two input elements share an id: the third
    element is parented to the id ["a"] in the first run and to root in the
    second, and its rectangle moves from (150,150) to (145,145). *)
Lemma idempotence_fails_with_shared_id :
  let first := calculateRuntimePositions [dupA; dupB; dupC] vp1280 in
  let second := out ← first; calculateRuntimePositions out vp1280 in
  runtimeAt 2 first
  = Some (Some (mkRuntime (num 150) (num 150) (num 10) (num 10)
                  (Some "a")))
  ∧ runtimeAt 2 second
    = Some (Some (mkRuntime (num 145) (num 145) (num 10) (num 10) None))
  ∧ runtimeAt 2 first ≠ runtimeAt 2 second.
Proof. repeat split; by_evaluation. Qed.

(** C7, amended. With unique ids, running the pipeline on its own output
    with the same viewport returns that output again. *)
Theorem idempotent_on_unique_ids (elements : list LayoutElement)
    (viewport : Viewport) :
  NoDup (el_id <$> elements) →
  ∃ out,
    calculateRuntimePositions elements viewport = Ok out
    ∧ calculateRuntimePositions out viewport = Ok out.
Proof.
  intros Hnd.
  destruct (calculateRuntimePositions_frame elements viewport Hnd)
    as (out & Hout & Hall).
  exists out. split; [done|].
  rewrite <-Hout. apply calculateRuntimePositions_persisted.
  clear Hout Hnd. induction Hall as [|el e l k [r ->] _ IH]; simpl; [done|].
  by f_equal.
Qed.

Lemma idempotent_on_unique_ids_witness :
  ∃ out,
    calculateRuntimePositions [cycA; cycB] vp1280 = Ok out
    ∧ calculateRuntimePositions out vp1280 = Ok out.
Proof. apply idempotent_on_unique_ids. by_evaluation. Defined.

(** ** Termination of the finalization *)

Lemma withParents_estimated elements viewport id pel :
  findById (assignParents (estimateAll elements viewport)) id = Some pel →
  ∃ el, el ∈ elements ∧ el_id el = id
        ∧ rectOfRuntime (el_runtime pel)
          = rectOfRuntime (el_runtime (estimate viewport el)).
Proof.
  intros [Hin <-]%findById_Some.
  apply list_elem_of_fmap in Hin as (child & -> & Hchild).
  apply list_elem_of_fmap in Hchild as (el & -> & Hel).
  exists el. split; [done|]. split; [by rewrite el_id_assignParent|].
  unfold assignParent. by destruct (potentialParents _ _).
Qed.

(** C5. For every element list and viewport the pipeline returns, whatever
    parent graph Pass 2 produced. Each top-level call of [calculateElement]
    returns with the fuel the pipeline gives it, and with any larger fuel it
    returns the same; a call for an id that is on the resolution stack and
    not yet in [finalMap] returns at once the [withParents] entry of that
    id, whose rectangle is the Pass-1 estimate, and leaves [finalMap] as it
    was. Two containers that Pass 2 makes each other's parent are resolved,
    the second against the first one's estimated rectangle. *)
Theorem finalization_terminates (elements : list LayoutElement)
    (viewport : Viewport) :
  let withParents := assignParents (estimateAll elements viewport) in
  (∃ out, calculateRuntimePositions elements viewport = Ok out)
  ∧ (∀ id m, id ∈ el_id <$> withParents →
       ∃ r m',
         calculateElement viewport withParents (S (length withParents)) id
           [] m = Ok (r, m')
         ∧ ∀ fuel, (length withParents < fuel)%nat →
             calculateElement viewport withParents fuel id [] m
             = Ok (r, m'))
  ∧ (∀ fuel id stack m, m !! id = None → id ∈ stack →
       calculateElement viewport withParents (S fuel) id stack m
       = Ok (as_layout <$> findById withParents id, m))
  ∧ (∀ id pel, findById withParents id = Some pel →
       ∃ el, el ∈ elements ∧ el_id el = id
             ∧ rectOfRuntime (el_runtime pel)
               = rectOfRuntime (el_runtime (estimate viewport el)))
  ∧ resolvedParents (calculateRuntimePositions [cycA; cycB] vp1280)
    = Ok [Some (Some "B"); Some (Some "A")]
  ∧ calculateRuntimePositions [cycA; cycB] vp1280
    = Ok [set_runtime cycA
            (Some (mkRuntime (num 10) (num 10) (num 100) (num 100)
                     (Some "B")));
          set_runtime cycB
            (Some (mkRuntime (num 10) (num 10) (num 100) (num 100)
                     (Some "A")))].
Proof.
  intros withParents.
  split.
  { destruct (calculateRuntimePositions_spec elements viewport)
      as (out & Hout & _). by exists out. }
  split.
  { intros id m Hid.
    destruct (calculateElement_total viewport withParents
                (S (length withParents)) id [] m)
      as (r & m' & Hc).
    - apply withParents_closed.
    - constructor.
    - intros x Hx. by inv Hx.
    - done.
    - simpl. lia.
    - exists r, m'. split; [done|]. intros fuel Hfuel.
      eapply calculateElement_fuel_mono; [exact Hc|lia]. }
  split; [intros; by apply calculateElement_cycle|].
  split; [apply withParents_estimated|].
  split; by_evaluation.
Qed.

Lemma finalization_terminates_witness :
  ∃ r m',
    calculateElement vp1280 (assignParents (estimateAll [cycA; cycB] vp1280))
      (S (length (assignParents (estimateAll [cycA; cycB] vp1280))))
      "A" [] ∅ = Ok (r, m')
    ∧ ∀ fuel,
        (length (assignParents (estimateAll [cycA; cycB] vp1280)) < fuel)%nat
        → calculateElement vp1280
            (assignParents (estimateAll [cycA; cycB] vp1280)) fuel "A" [] ∅
          = Ok (r, m').
Proof.
  apply (finalization_terminates [cycA; cycB] vp1280).
  apply list_elem_of_In. simpl. auto.
Defined.

(** * Further properties of the engine *)

(** ** Sizes and the anchor transform *)



(** X3. With an anchor of the other axis (['top'] or ['bottom'] on x,
    ['left'] or ['right'] on y) neither direction fails: the forward
    transform is 0 and the inverse is 0, whatever the value, the unit and the
    rectangles. *)
Theorem foreign_anchor_gives_zero (val : LayoutValue) (absPos size : Qc)
    (anchor : Anchor) (axis : PosAxis) (u : UnitType) (viewport : Viewport)
    (parentRect : Rect) :
  ¬ anchorOfAxis axis anchor →
  convertOffsetToAbsolute val anchor axis size viewport parentRect = 0
  ∧ convertAbsoluteToOffset absPos anchor axis size u viewport parentRect
    = 0.
Proof.
  intros Ha.
  assert (Hcase : (axis = AxisX ∧ (anchor = Top ∨ anchor = Bottom))
                  ∨ (axis = AxisY ∧ (anchor = Left ∨ anchor = Right))).
  { unfold anchorOfAxis in Ha. destruct axis, anchor; simpl in Ha;
      try (exfalso; apply Ha; auto; fail); auto. }
  unfold convertOffsetToAbsolute, convertAbsoluteToOffset.
  destruct Hcase as [[-> [-> | ->]] | [-> [-> | ->]]]; (split; [done|]).
  all: destruct u; simpl; try done.
  all: case_bool_decide; try done; ring.
Qed.

Lemma foreign_anchor_gives_zero_witness :
  convertOffsetToAbsolute (mkValue (num 10) PX) Top AxisX (num 50) vp1280
    (mkRect 0 0 (num 640) (num 400)) = 0
  ∧ convertAbsoluteToOffset (num 300) Top AxisX (num 50) PERCENT_PARENT_W
      vp1280 (mkRect 0 0 (num 640) (num 400)) = 0.
Proof.
  apply foreign_anchor_gives_zero.
  unfold anchorOfAxis. simpl. intros [H | [H | H]]; discriminate H.
Defined.

(** ** The memo table of Pass 3 *)

Section MemoFacts.
Variable viewport : Viewport.
Variable withParents : list Placed.

Local Abbreviation calc := (calculateElement viewport withParents).
Local Abbreviation find := (findById withParents).
Local Abbreviation resolved := (resolved viewport withParents).

Lemma calculateElement_mono fuel id stack m r m' :
  (∀ k, k ∈ stack → m !! k = None) →
  calc fuel id stack m = Ok (r, m') →
  m ⊆ m'
  ∧ (∀ k, k ∈ stack → m' !! k = None)
  ∧ ((∃ e, r = Some e ∧ m' !! id = Some e)
     ∨ (id ∈ stack ∧ r = as_layout <$> find id)).
Proof.
  revert id stack m r m'.
  induction fuel as [|fuel IH]; intros id stack m r m' Hst Hc; [done|].
  rewrite calculateElement_unfold in Hc.
  destruct (m !! id) as [e|] eqn:Hid.
  { simplify_eq. split_and!; [done|done|]. left. by exists e. }
  case_bool_decide as Hin.
  { simplify_eq. split_and!; [done|done|]. by right. }
  destruct (find id) as [el|] eqn:Hel; [|done].
  assert (Hins : ∀ (m1 : gmap string LayoutElement) res,
    m ⊆ m1 → (∀ k, k ∈ stack ++ [id] → m1 !! k = None) →
    m ⊆ <[id:=res]> m1
    ∧ (∀ k, k ∈ stack → <[id:=res]> m1 !! k = None)
    ∧ ((∃ e, Some res = Some e ∧ <[id:=res]> m1 !! id = Some e)
       ∨ (id ∈ stack ∧ Some res = as_layout <$> find id))).
  { intros m1 res Hsub Hnone. split_and!.
    - etrans; [exact Hsub|]. apply insert_subseteq, Hnone.
      apply elem_of_app. right. left.
    - intros k Hk. rewrite lookup_insert_ne by (intros ->; done).
      apply Hnone, elem_of_app. by left.
    - left. exists res. by rewrite lookup_insert_eq. }
  rewrite Hel in Hins.
  destruct (truthy _) as [pid|].
  - destruct (calc fuel pid (stack ++ [id]) m) as [[pe m1]|] eqn:Hrec;
      [|done].
    simpl in Hc. simplify_eq.
    assert (Hst1 : ∀ k, k ∈ stack ++ [id] → m !! k = None).
    { intros k [Hk| ->%list_elem_of_singleton]%elem_of_app; auto. }
    destruct (IH _ _ _ _ _ Hst1 Hrec) as (Hsub & Hnone & _).
    apply Hins; [exact Hsub|exact Hnone].
  - simpl in Hc. simplify_eq. apply Hins; [done|].
    intros k [Hk| ->%list_elem_of_singleton]%elem_of_app; auto.
Qed.

Lemma resolvedEntry_mono m m' id e :
  m ⊆ m' →
  resolvedEntry viewport withParents m id e →
  resolvedEntry viewport withParents m' id e.
Proof.
  intros Hsub (el & Hel & Hcase). exists el. split; [done|].
  destruct (truthy _) as [pid|]; [|done].
  destruct Hcase as [(p & Hp & He)|He]; [left|by right].
  exists p. split; [|done]. by eapply lookup_weaken.
Qed.

Lemma calculateElement_resolved fuel id stack m r m' :
  (∀ k, k ∈ stack → m !! k = None) →
  resolved m →
  calc fuel id stack m = Ok (r, m') →
  resolved m'.
Proof.
  revert id stack m r m'.
  induction fuel as [|fuel IH]; intros id stack m r m' Hst Hm Hc; [done|].
  pose proof (calculateElement_mono _ _ _ _ _ _ Hst Hc) as (Hsub & _ & _).
  rewrite calculateElement_unfold in Hc.
  destruct (m !! id) as [e|] eqn:Hid; [by simplify_eq|].
  case_bool_decide as Hin; [by simplify_eq|].
  destruct (find id) as [el|] eqn:Hel; [|done].
  destruct (truthy _) as [pid|] eqn:Hpid.
  - destruct (calc fuel pid (stack ++ [id]) m) as [[pe m1]|] eqn:Hrec;
      [|done].
    simpl in Hc. simplify_eq.
    assert (Hst1 : ∀ k, k ∈ stack ++ [id] → m !! k = None).
    { intros k [Hk| ->%list_elem_of_singleton]%elem_of_app; auto. }
    pose proof (calculateElement_mono _ _ _ _ _ _ Hst1 Hrec)
      as (Hsub1 & Hnone1 & Hret).
    pose proof (IH _ _ _ _ _ Hst1 Hm Hrec) as Hm1.
    assert (Hid1 : m1 !! id = None).
    { apply Hnone1, elem_of_app. right. left. }
    intros k e. destruct (decide (id = k)) as [<-|Hne].
    + rewrite lookup_insert_eq. intros [= <-].
      exists el. split; [done|]. rewrite Hpid.
      destruct Hret as [(p & -> & Hp)|[_ ->]]; [left|by right].
      exists p. split; [|done].
      rewrite lookup_insert_ne; [done|]. intros ->. congruence.
    + rewrite lookup_insert_ne by done. intros Hk.
      eapply resolvedEntry_mono; [|by apply Hm1].
      by apply insert_subseteq.
  - simpl in Hc. simplify_eq.
    intros k e. destruct (decide (id = k)) as [<-|Hne].
    + rewrite lookup_insert_eq. intros [= <-].
      exists el. split; [done|]. by rewrite Hpid.
    + rewrite lookup_insert_ne by done. intros Hk.
      eapply resolvedEntry_mono; [|by apply Hm].
      by apply insert_subseteq.
Qed.

Lemma finalizeAll_resolved_from fuel l m0 m :
  resolved m0 →
  forEachM
    (λ m (el : Placed), '(_, m') ← calc fuel (el_id el) [] m; Ok m') l m0
  = Ok m →
  resolved m.
Proof.
  revert m0. induction l as [|a l IH]; intros m0 Hm0 Hf; simpl in Hf.
  { by simplify_eq. }
  destruct (calc fuel (el_id a) [] m0) as [[r m1]|] eqn:Hc; [|done].
  simpl in Hf. eapply IH; [|exact Hf].
  eapply calculateElement_resolved; [|exact Hm0|exact Hc].
  intros k Hk. by inv Hk.
Qed.

Lemma finalizeAll_resolved fuel m :
  finalizeAll viewport withParents fuel = Ok m → resolved m.
Proof.
  apply finalizeAll_resolved_from. intros id e. by rewrite lookup_empty.
Qed.
End MemoFacts.

(** ** How the output is resolved *)

Lemma find_id_NoDup {R} (l : list (Element R)) (p : Element R) :
  NoDup (el_id <$> l) → p ∈ l →
  List.find (λ e, bool_decide (el_id e = el_id p)) l = Some p.
Proof.
  intros Hnd Hp.
  destruct (List.find _ l) as [q|] eqn:Hq.
  - apply find_some in Hq as [Hq Hid].
    apply list_elem_of_In in Hq. apply bool_decide_eq_true in Hid.
    f_equal. by eapply (NoDup_fmap_elem_eq el_id).
  - apply list_elem_of_In in Hp.
    pose proof (find_none _ _ Hq _ Hp) as Hn. simpl in Hn.
    by rewrite bool_decide_eq_true_2 in Hn.
Qed.

Lemma find_id_None {R} (l : list (Element R)) (id : string) :
  id ∉ el_id <$> l →
  List.find (λ e, bool_decide (el_id e = id)) l = None.
Proof.
  intros Hid. destruct (List.find _ l) as [p|] eqn:Hp; [|done].
  apply find_some in Hp as [Hp Heq]. apply bool_decide_eq_true in Heq.
  destruct Hid. rewrite <-Heq. by apply list_elem_of_fmap_2, list_elem_of_In.
Qed.


Lemma withParents_find elements viewport el :
  NoDup (el_id <$> elements) → el ∈ elements →
  findById (assignParents (estimateAll elements viewport)) (el_id el)
  = Some (assignParent (estimateAll elements viewport)
            (estimate viewport el)).
Proof.
  intros Hnd Hel.
  rewrite <-(el_id_set_runtime el ()), <-(set_runtime_estimate viewport),
    <-(set_runtime_assignParent (estimateAll elements viewport)),
    el_id_set_runtime.
  apply findById_NoDup; [by rewrite withParents_ids|].
  by apply list_elem_of_fmap_2, list_elem_of_fmap_2.
Qed.

(** The pipeline returns the entries of a resolved memo table. *)
Lemma calculateRuntimePositions_resolved elements viewport :
  let withParents := assignParents (estimateAll elements viewport) in
  ∃ out m,
    calculateRuntimePositions elements viewport = Ok out
    ∧ resolved viewport withParents m
    ∧ Forall2 (λ el e, m !! el_id el = Some e) elements out.
Proof.
  intros withParents. unfold calculateRuntimePositions.
  fold withParents.
  destruct (finalizeAll_spec viewport withParents (S (length withParents)))
    as (m & Hm & _ & Hall); [apply withParents_closed|lia|].
  pose proof (finalizeAll_resolved _ _ _ _ Hm) as Hres.
  rewrite Hm. simpl.
  destruct (mapR_lookup m elements) as (out & -> & Hout).
  { intros el Hel.
    assert (el_id el ∈ el_id <$> withParents) as Hid.
    { unfold withParents. rewrite withParents_ids.
      by apply list_elem_of_fmap_2. }
    apply list_elem_of_fmap in Hid as (pel & -> & Hpel). auto. }
  by exists out, m.
Qed.

Lemma rect_assignParent est child :
  rectOfRuntime (el_runtime (assignParent est child))
  = rectOfRuntime (el_runtime child).
Proof. unfold assignParent. by destruct (potentialParents est child). Qed.

Lemma el_layout_assignParent est child :
  el_layout (assignParent est child) = el_layout child.
Proof. unfold assignParent. by destruct (potentialParents est child). Qed.

(** Against the viewport, Pass 3 recomputes the rectangle of Pass 1. *)
Lemma finalRect_viewport elements viewport el :
  finalRect
    (finalize viewport
       (assignParent (estimateAll elements viewport) (estimate viewport el))
       (viewportRect viewport))
  = Some (rectOfRuntime (el_runtime (estimate viewport el))).
Proof.
  unfold finalRect, finalize. simpl. by rewrite el_layout_assignParent.
Qed.

(** With unique ids: each output element is its [withParents] entry
    finalized against the viewport, against the output element of its
    parent, or against the Pass-1 rectangle of its parent. *)
Lemma calculateRuntimePositions_hierarchy elements viewport :
  NoDup (el_id <$> elements) →
  ∃ out,
    calculateRuntimePositions elements viewport = Ok out
    ∧ ∀ i el e, elements !! i = Some el → out !! i = Some e →
        let pel := assignParent (estimateAll elements viewport)
                     (estimate viewport el) in
        match truthy (rt_parentId (el_runtime pel)) with
        | None => e = finalize viewport pel (viewportRect viewport)
        | Some pid =>
            ∃ j pin p,
              elements !! j = Some pin ∧ out !! j = Some p
              ∧ el_id pin = pid
              ∧ (e = finalize viewport pel (parentRectOf viewport (Some p))
                 ∨ e = finalize viewport pel
                         (rectOfRuntime (el_runtime (estimate viewport pin))))
        end.
Proof.
  intros Hnd.
  destruct (calculateRuntimePositions_resolved elements viewport)
    as (out & m & Hout & Hres & Hall).
  exists out. split; [done|].
  intros i el e Hi Ho pel.
  pose proof (Forall2_lookup_lr _ _ _ _ _ _ Hall Hi Ho) as He.
  destruct (Hres _ _ He) as (pel' & Hpel & Hcase).
  rewrite withParents_find in Hpel
    by (done || by eapply list_elem_of_lookup_2).
  injection Hpel as <-. fold pel in Hcase.
  destruct (truthy (rt_parentId (el_runtime pel))) as [pid|] eqn:Hpid;
    [|done].
  assert (pid ∈ el_id <$> elements) as Hin.
  { rewrite <-(withParents_ids elements viewport).
    eapply (withParents_closed elements viewport pel); [|done].
    apply list_elem_of_fmap_2, list_elem_of_fmap_2.
    by eapply list_elem_of_lookup_2. }
  apply list_elem_of_fmap in Hin as (pin & -> & Hpin).
  apply list_elem_of_lookup in Hpin as [j Hj].
  destruct (Forall2_lookup_l _ _ _ _ _ Hall Hj) as (p & Hp & Hmp).
  exists j, pin, p. split_and!; [done..|].
  destruct Hcase as [(p' & Hp' & He')|He'].
  - left. rewrite He'. congruence.
  - right. rewrite He'. rewrite withParents_find
      by (done || by eapply list_elem_of_lookup_2).
    simpl. by rewrite rect_assignParent.
Qed.

Lemma finalize_ext viewport (a b : Placed) R :
  set_runtime a () = set_runtime b () →
  rt_parentId (el_runtime a) = rt_parentId (el_runtime b) →
  finalize viewport a R = finalize viewport b R.
Proof.
  destruct a, b. unfold set_runtime, finalize. simpl.
  intros [= -> -> -> ->] ->. done.
Qed.

Lemma finalize_as_input elements viewport (el : LayoutElement) r R :
  rt_parentId r
  = rt_parentId
      (el_runtime
         (assignParent (estimateAll elements viewport)
            (estimate viewport el))) →
  finalize viewport
    (assignParent (estimateAll elements viewport) (estimate viewport el)) R
  = finalize viewport (set_runtime el r) R.
Proof.
  intros Hp. apply finalize_ext; [|done].
  by rewrite set_runtime_assignParent, set_runtime_estimate.
Qed.

Lemma finalize_parentId viewport (el : Placed) R r :
  el_runtime (finalize viewport el R) = Some r →
  rt_parentId r = rt_parentId (el_runtime el).
Proof. unfold finalize. simpl. by intros [= <-]. Qed.

(** X4. With unique ids, an element that Pass 2 leaves without a parent
    (its [parentId] is [null] or the empty string) ends with exactly the
    rectangle Pass 1 estimated for it against the viewport. *)
Theorem root_elements_keep_estimate (elements : list LayoutElement)
    (viewport : Viewport) :
  NoDup (el_id <$> elements) →
  ∃ out,
    calculateRuntimePositions elements viewport = Ok out
    ∧ ∀ i el e r,
        elements !! i = Some el → out !! i = Some e →
        el_runtime e = Some r → truthy (rt_parentId r) = None →
        rectOfRuntime r = rectOfRuntime (el_runtime (estimate viewport el)).
Proof.
  intros Hnd.
  destruct (calculateRuntimePositions_hierarchy elements viewport Hnd)
    as (out & Hout & Hall).
  exists out. split; [done|].
  intros i el e r Hi Ho Hr Hroot.
  specialize (Hall i el e Hi Ho). simpl in Hall.
  destruct (truthy _) as [pid|] eqn:Hpid.
  - destruct Hall as (j & pin & p & _ & _ & _ & [He|He]);
      rewrite He in Hr; apply finalize_parentId in Hr; congruence.
  - pose proof (finalRect_viewport elements viewport el) as Hrect.
    rewrite <-Hall in Hrect. unfold finalRect in Hrect.
    rewrite Hr in Hrect. by apply (inj Some).
Qed.

Lemma root_elements_keep_estimate_witness :
  ∃ out,
    calculateRuntimePositions [scenarioC; scenarioD] vp1280 = Ok out
    ∧ ∀ i el e r,
        [scenarioC; scenarioD] !! i = Some el → out !! i = Some e →
        el_runtime e = Some r → truthy (rt_parentId r) = None →
        rectOfRuntime r = rectOfRuntime (el_runtime (estimate vp1280 el)).
Proof. apply root_elements_keep_estimate. by_evaluation. Defined.

(** ** Elements on no cycle of parents *)

Section Chains.
Variable parent : string → option (option string).

Lemma reachesRoot_In id : reachesRoot parent id ↔ ∃ n, reachesRootIn parent n id.
Proof.
  split.
  - induction 1 as [id H|id pid H _ [n IH]].
    + by exists 0%nat.
    + exists (S n). simpl. eauto.
  - intros [n H]. revert id H. induction n as [|n IH]; intros id H.
    + by constructor.
    + destruct H as (pid & Hp & H). eapply reachesRoot_step; eauto.
Qed.

Lemma reachesRootIn_inj n n' id :
  reachesRootIn parent n id → reachesRootIn parent n' id → n = n'.
Proof.
  revert n' id. induction n as [|n IH]; intros [|n'] id; simpl.
  - done.
  - intros H (pid & H' & _). congruence.
  - intros (pid & H' & _) H. congruence.
  - intros (pid & Hp & H) (pid' & Hp' & H'). f_equal.
    assert (pid' = pid) as -> by congruence. eauto.
Qed.

Lemma parentChain_cons a l : parentChain parent (a :: l) → parentChain parent l.
Proof. intros H i x y Hx Hy. by apply (H (S i)). Qed.

Lemma parentChain_snoc l a b :
  parentChain parent (l ++ [a]) → parent a = Some (Some b) →
  parentChain parent ((l ++ [a]) ++ [b]).
Proof.
  intros Hl Hab i x y Hx Hy.
  destruct (decide (S i < length (l ++ [a]))%nat) as [Hlt|Hge].
  - rewrite lookup_app_l in Hx by lia. rewrite lookup_app_l in Hy by lia.
    by eapply Hl.
  - assert (S i = length (l ++ [a])) as Hi.
    { apply lookup_lt_Some in Hy. rewrite length_app in Hy. simpl in Hy.
      lia. }
    rewrite lookup_app_r in Hy by lia. rewrite Hi, Nat.sub_diag in Hy.
    injection Hy as <-.
    rewrite lookup_app_l in Hx by lia.
    rewrite length_app in Hi. simpl in Hi.
    rewrite lookup_app_r in Hx by lia.
    replace (i - length l)%nat with 0%nat in Hx by lia.
    injection Hx as <-. done.
Qed.

(** Along a chain the distance to the root shrinks by one per step. *)
Lemma parentChain_depth l i k a b n :
  parentChain parent l → l !! i = Some a → l !! (i + k)%nat = Some b →
  reachesRootIn parent n a →
  (k ≤ n)%nat ∧ reachesRootIn parent (n - k) b.
Proof.
  intros Hc. revert i a n.
  induction k as [|k IH]; intros i a n Hi Hk Ha.
  - rewrite Nat.add_0_r in Hk. assert (b = a) as -> by congruence.
    split; [lia|]. by rewrite Nat.sub_0_r.
  - destruct (l !! S i) as [c|] eqn:Hc'.
    2:{ apply lookup_lt_Some in Hk. apply lookup_ge_None in Hc'. lia. }
    assert (parent a = Some (Some c)) as Hac by (by eapply Hc).
    destruct n as [|n]; simpl in Ha; [congruence|].
    destruct Ha as (pid & Hp & Hn).
    assert (pid = c) as -> by congruence.
    destruct (IH (S i) c n) as [Hle Hb]; [done| |done|].
    { by replace (S i + k)%nat with (i + S k)%nat by lia. }
    split; [lia|]. exact Hb.
Qed.

(** The parent of the last id of a chain that reaches the root is not on
    the chain. *)
Lemma parentChain_fresh l id pid :
  parentChain parent (l ++ [id]) → parent id = Some (Some pid) →
  reachesRoot parent id → pid ∉ l ++ [id].
Proof.
  intros Hc Hp [n Hn]%reachesRoot_In Hin.
  destruct n as [|n]; simpl in Hn; [congruence|].
  destruct Hn as (pid' & Hp' & Hn).
  assert (pid' = pid) as -> by congruence.
  apply list_elem_of_lookup in Hin as [i Hi].
  pose proof (lookup_lt_Some _ _ _ Hi) as Hlt.
  rewrite length_app in Hlt. simpl in Hlt.
  destruct (parentChain_depth (l ++ [id]) i (length l - i) pid id n)
    as [Hlen Hid]; [done|done| |done|].
  { replace (i + (length l - i))%nat with (length l) by lia.
    by rewrite lookup_app_r, Nat.sub_diag by lia. }
  assert (reachesRootIn parent (S n) id) as HS.
  { simpl. eauto. }
  pose proof (reachesRootIn_inj _ _ _ HS Hid). lia.
Qed.
End Chains.

Section ProperFacts.
Variable viewport : Viewport.
Variable withParents : list Placed.

Local Abbreviation calc := (calculateElement viewport withParents).
Local Abbreviation find := (findById withParents).
Local Abbreviation parent := (parentIn withParents).

Lemma properEntry_mono m m' id e :
  m ⊆ m' → properEntry viewport withParents m id e →
  properEntry viewport withParents m' id e.
Proof.
  intros Hsub (el & Hel & H). exists el. split; [done|].
  destruct (truthy _); [|done].
  destruct H as (p & Hp & ->). exists p. split; [|done].
  by eapply lookup_weaken.
Qed.

Lemma calculateElement_proper fuel id stack m r m' :
  parentChain parent (stack ++ [id]) →
  (∀ k, k ∈ stack → m !! k = None) →
  proper viewport withParents m →
  calc fuel id stack m = Ok (r, m') →
  proper viewport withParents m'.
Proof.
  revert id stack m r m'.
  induction fuel as [|fuel IH]; intros id stack m r m' Hch Hst Hm Hc;
    [done|].
  rewrite calculateElement_unfold in Hc.
  destruct (m !! id) as [e|] eqn:Hid; [by simplify_eq|].
  case_bool_decide as Hin; [by simplify_eq|].
  destruct (find id) as [el|] eqn:Hel; [|done].
  destruct (truthy _) as [pid|] eqn:Hpid.
  - destruct (calc fuel pid (stack ++ [id]) m) as [[pe m1]|] eqn:Hrec;
      [|done].
    simpl in Hc. simplify_eq.
    assert (Hpar : parent id = Some (Some pid)).
    { unfold parentIn. by rewrite Hel; simpl; rewrite Hpid. }
    assert (Hst1 : ∀ k, k ∈ stack ++ [id] → m !! k = None).
    { intros k [Hk| ->%list_elem_of_singleton]%elem_of_app; auto. }
    pose proof (calculateElement_mono _ _ _ _ _ _ _ _ Hst1 Hrec)
      as (Hsub1 & Hnone1 & Hret).
    assert (Hm1 : proper viewport withParents m1).
    { eapply IH; [|exact Hst1|exact Hm|exact Hrec].
      by apply parentChain_snoc. }
    assert (Hid1 : m1 !! id = None).
    { apply Hnone1, elem_of_app. right. left. }
    intros k e. destruct (decide (id = k)) as [<-|Hne].
    + rewrite lookup_insert_eq. intros [= <-] Hroot.
      exists el. split; [done|]. rewrite Hpid.
      destruct Hret as [(p & -> & Hp)|[Hcyc _]].
      * exists p. split; [|done].
        rewrite lookup_insert_ne; [done|]. intros ->. congruence.
      * destruct (parentChain_fresh parent stack id pid); done.
    + rewrite lookup_insert_ne by done. intros Hk Hroot.
      eapply properEntry_mono; [|by apply Hm1].
      by apply insert_subseteq.
  - simpl in Hc. simplify_eq.
    intros k e. destruct (decide (id = k)) as [<-|Hne].
    + rewrite lookup_insert_eq. intros [= <-] _.
      exists el. split; [done|]. by rewrite Hpid.
    + rewrite lookup_insert_ne by done. intros Hk Hroot.
      eapply properEntry_mono; [|by apply Hm].
      by apply insert_subseteq.
Qed.

Lemma finalizeAll_proper_from fuel l m0 m :
  proper viewport withParents m0 →
  forEachM
    (λ m (el : Placed), '(_, m') ← calc fuel (el_id el) [] m; Ok m') l m0
  = Ok m →
  proper viewport withParents m.
Proof.
  revert m0. induction l as [|a l IH]; intros m0 Hm0 Hf; simpl in Hf.
  { by simplify_eq. }
  destruct (calc fuel (el_id a) [] m0) as [[r m1]|] eqn:Hc; [|done].
  simpl in Hf. eapply IH; [|exact Hf].
  eapply calculateElement_proper; [| |exact Hm0|exact Hc].
  - intros i x y Hx Hy. destruct i; discriminate.
  - intros k Hk. by inv Hk.
Qed.

Lemma finalizeAll_proper fuel m :
  finalizeAll viewport withParents fuel = Ok m →
  proper viewport withParents m.
Proof.
  apply finalizeAll_proper_from. intros id e. by rewrite lookup_empty.
Qed.
End ProperFacts.

Lemma reachesRoot_ext (p1 p2 : string → option (option string)) id :
  (∀ k, p1 k = p2 k) → reachesRoot p1 id → reachesRoot p2 id.
Proof.
  intros Heq. induction 1 as [id H|id pid H _ IH].
  - apply reachesRoot_here. by rewrite <-Heq.
  - eapply reachesRoot_step; [|exact IH]. by rewrite <-Heq.
Qed.

(** The pipeline returns the entries of a memo table in which every id on
    no cycle was computed against its parent's entry. *)
Lemma calculateRuntimePositions_proper elements viewport :
  let withParents := assignParents (estimateAll elements viewport) in
  ∃ out m,
    calculateRuntimePositions elements viewport = Ok out
    ∧ proper viewport withParents m
    ∧ Forall2 (λ el e, m !! el_id el = Some e) elements out.
Proof.
  intros withParents. unfold calculateRuntimePositions.
  fold withParents.
  destruct (finalizeAll_spec viewport withParents (S (length withParents)))
    as (m & Hm & _ & Hall); [apply withParents_closed|lia|].
  pose proof (finalizeAll_proper _ _ _ _ Hm) as Hres.
  rewrite Hm. simpl.
  destruct (mapR_lookup m elements) as (out & -> & Hout).
  { intros el Hel.
    assert (el_id el ∈ el_id <$> withParents) as Hid.
    { unfold withParents. rewrite withParents_ids.
      by apply list_elem_of_fmap_2. }
    apply list_elem_of_fmap in Hid as (pel & -> & Hpel). auto. }
  by exists out, m.
Qed.

(** The parent pointers of the output are those of Pass 2. *)
Lemma parentOf_output elements viewport out :
  NoDup (el_id <$> elements) →
  calculateRuntimePositions elements viewport = Ok out →
  ∀ id, parentOf out id
        = parentIn (assignParents (estimateAll elements viewport)) id.
Proof.
  intros Hnd Hout id.
  destruct (calculateRuntimePositions_spec elements viewport)
    as (out' & Hout' & Hall).
  rewrite Hout in Hout'. injection Hout' as <-.
  assert (el_id <$> out = el_id <$> elements) as Hids.
  { symmetry. apply list_eq_Forall2, Forall2_fmap.
    eapply Forall2_impl; [exact Hall|].
    intros el e (pel & rect & Hpel & ->). simpl.
    by apply findById_Some in Hpel as [_ <-]. }
  unfold parentOf, parentIn.
  destruct (decide (id ∈ el_id <$> elements)) as [Hin|Hin].
  - apply list_elem_of_fmap in Hin as (el & -> & Hel).
    apply list_elem_of_lookup in Hel as [i Hi].
    destruct (Forall2_lookup_l _ _ _ _ _ Hall Hi)
      as (e & Ho & pel & rect & Hpel & ->).
    rewrite Hpel.
    assert (el_id (finalize viewport pel rect) = el_id el) as Hid.
    { simpl. by apply findById_Some in Hpel as [_ <-]. }
    rewrite <-Hid.
    rewrite find_id_NoDup;
      [done|by rewrite Hids|by eapply list_elem_of_lookup_2].
  - rewrite find_id_None by (by rewrite Hids).
    unfold findById. rewrite find_id_None; [done|].
    by rewrite withParents_ids.
Qed.

(** With unique ids, an element on no cycle of parents is finalized
    against the output element of its parent. *)
Lemma calculateRuntimePositions_rooted elements viewport :
  NoDup (el_id <$> elements) →
  ∃ out,
    calculateRuntimePositions elements viewport = Ok out
    ∧ ∀ i el e pid, elements !! i = Some el → out !! i = Some e →
        let pel := assignParent (estimateAll elements viewport)
                     (estimate viewport el) in
        truthy (rt_parentId (el_runtime pel)) = Some pid →
        reachesRoot (parentOf out) (el_id el) →
        ∃ p, (∀ j pin, elements !! j = Some pin → el_id pin = pid →
                out !! j = Some p)
             ∧ e = finalize viewport pel (parentRectOf viewport (Some p)).
Proof.
  intros Hnd.
  destruct (calculateRuntimePositions_proper elements viewport)
    as (out & m & Hout & Hprop & Hall).
  exists out. split; [done|].
  intros i el e pid Hi Ho pel Hpid Hroot.
  pose proof (Forall2_lookup_lr _ _ _ _ _ _ Hall Hi Ho) as He.
  destruct (Hprop _ _ He) as (pel' & Hpel & Hcase).
  { eapply reachesRoot_ext; [|exact Hroot].
    by apply parentOf_output. }
  rewrite withParents_find in Hpel
    by (done || by eapply list_elem_of_lookup_2).
  injection Hpel as <-. fold pel in Hcase. rewrite Hpid in Hcase.
  destruct Hcase as (p & Hp & ->).
  exists p. split; [|done].
  intros j pin Hj <-.
  destruct (Forall2_lookup_l _ _ _ _ _ Hall Hj) as (p' & Hp' & Hmp).
  congruence.
Qed.



Lemma finalize_global_rect viewport (el : Placed) R R' :
  isGlobal (lv_unit (lc_x (el_layout el))) = true →
  isGlobal (lv_unit (lc_y (el_layout el))) = true →
  isGlobal (lv_unit (lc_width (el_layout el))) = true →
  isGlobal (lv_unit (lc_height (el_layout el))) = true →
  finalRect (finalize viewport el R) = finalRect (finalize viewport el R').
Proof.
  destruct el as [id ty na [[vx ux] [vy uy] [vw uw] [vh uh] z ax ay c] rt].
  unfold finalRect, finalize, toPixels, convertOffsetToAbsolute,
    resolveLength, refRectOf. simpl.
  intros Hx Hy Hw Hh.
  destruct ux; try discriminate Hx; destruct uy; try discriminate Hy;
    destruct uw; try discriminate Hw; destruct uh; try discriminate Hh;
    reflexivity.
Qed.

(** X6. With unique ids, an element whose x, y, width and height are all
    in [vw] or [vh] ends with the rectangle Pass 1 estimated for it,
    whichever parent Pass 2 gave it. *)
Theorem viewport_unit_elements_keep_estimate
    (elements : list LayoutElement) (viewport : Viewport) (i : nat)
    (el : LayoutElement) :
  NoDup (el_id <$> elements) →
  elements !! i = Some el →
  isGlobal (lv_unit (lc_x (el_layout el))) = true →
  isGlobal (lv_unit (lc_y (el_layout el))) = true →
  isGlobal (lv_unit (lc_width (el_layout el))) = true →
  isGlobal (lv_unit (lc_height (el_layout el))) = true →
  ∃ out e,
    calculateRuntimePositions elements viewport = Ok out
    ∧ out !! i = Some e
    ∧ finalRect e = Some (rectOfRuntime (el_runtime (estimate viewport el))).
Proof.
  intros Hnd Hi Hx Hy Hw Hh.
  destruct (calculateRuntimePositions_hierarchy elements viewport Hnd)
    as (out & Hout & Hall).
  assert (is_Some (out !! i)) as [e Ho].
  { apply lookup_lt_is_Some.
    destruct (calculateRuntimePositions_frame elements viewport Hnd)
      as (out' & Hout' & Hlen%Forall2_length).
    rewrite Hout in Hout'. injection Hout' as <-.
    rewrite <-Hlen. by eapply lookup_lt_Some. }
  exists out, e. split; [done|]. split; [done|].
  pose proof (Hall i el e Hi Ho) as He. simpl in He.
  rewrite <-(finalRect_viewport elements viewport el).
  destruct (truthy _).
  - destruct He as (j & pin & p & _ & _ & _ & [He|He]); rewrite He;
      apply finalize_global_rect; by rewrite el_layout_assignParent.
  - by rewrite He.
Qed.

(** The witness: the viewport-unit element is a child of the container. *)
Lemma viewport_unit_elements_keep_estimate_witness :
  resolvedParents (calculateRuntimePositions [scenarioC; scenarioV] vp1280)
  = Ok [Some None; Some (Some "C")]
  ∧ ∃ out e,
      calculateRuntimePositions [scenarioC; scenarioV] vp1280 = Ok out
      ∧ out !! 1%nat = Some e
      ∧ finalRect e
        = Some (rectOfRuntime (el_runtime (estimate vp1280 scenarioV))).
Proof.
  split; [by_evaluation|].
  apply (viewport_unit_elements_keep_estimate [scenarioC; scenarioV] vp1280
           1 scenarioV); try reflexivity.
  by_evaluation.
Defined.

Lemma withParents_parent_id elements viewport pel pid :
  pel ∈ assignParents (estimateAll elements viewport) →
  rt_parentId (el_runtime pel) = Some pid →
  pid ∈ el_id <$> elements.
Proof.
  intros (child & -> & Hchild)%list_elem_of_fmap.
  rewrite assignParent_parentId.
  destruct (potentialParents _ child) as [|p l] eqn:Hpp.
  - apply list_elem_of_fmap in Hchild as (e0 & -> & _). done.
  - intros [= <-].
    assert (p ∈ potentialParents (estimateAll elements viewport) child)
      as Hp by (rewrite Hpp; left).
    apply elem_of_potentialParents in Hp as [Hp _].
    rewrite <-(estimateAll_ids elements viewport).
    by apply list_elem_of_fmap_2.
Qed.

(** X7. For every input, a non-null [parentId] of an output element is the
    id of an output element, which carries a [_runtime]: the output never
    holds a dangling parent reference. *)
Theorem parent_references_resolve (elements : list LayoutElement)
    (viewport : Viewport) :
  ∃ out,
    calculateRuntimePositions elements viewport = Ok out
    ∧ Forall
        (λ e, ∀ pid, parentIdOf e = Some (Some pid) →
           ∃ p, p ∈ out ∧ el_id p = pid ∧ is_Some (el_runtime p))
        out.
Proof.
  destruct (calculateRuntimePositions_spec elements viewport)
    as (out & Hout & Hall).
  exists out. split; [done|].
  apply Forall_forall. intros e He pid Hpid.
  apply list_elem_of_lookup in He as [i Hi].
  destruct (Forall2_lookup_r _ _ _ _ _ Hall Hi)
    as (el & _ & pel & rect & Hpel & ->).
  apply findById_Some in Hpel as [Hpel _].
  assert (pid ∈ el_id <$> elements) as Hin.
  { eapply withParents_parent_id; [exact Hpel|].
    unfold parentIdOf, finalize in Hpid. simpl in Hpid. congruence. }
  apply list_elem_of_fmap in Hin as (pin & -> & Hpin).
  apply list_elem_of_lookup in Hpin as [j Hj].
  destruct (Forall2_lookup_l _ _ _ _ _ Hall Hj)
    as (p & Hp & ppel & prect & Hppel & ->).
  exists (finalize viewport ppel prect). split_and!.
  - by eapply list_elem_of_lookup_2.
  - by apply findById_Some in Hppel as [_ <-].
  - by eexists.
Qed.

(** X8. [getParentRect] falls back to the canvas (the viewport at the
    origin, named ['Canvas']) for [null], for the empty string, for the id
    ['root'] even when an element has that id, for an id no element has,
    and when the first element with the id has no [_runtime]. *)
Theorem getParentRect_falls_back_to_canvas (elements : list LayoutElement)
    (viewport : Viewport) :
  getParentRect None elements viewport = canvasRect viewport
  ∧ getParentRect (Some "") elements viewport = canvasRect viewport
  ∧ getParentRect (Some "root") elements viewport = canvasRect viewport
  ∧ (∀ pid, pid ∉ el_id <$> elements →
       getParentRect (Some pid) elements viewport = canvasRect viewport)
  ∧ (∀ before p after,
       elements = before ++ p :: after →
       el_id p ∉ el_id <$> before → el_runtime p = None →
       getParentRect (Some (el_id p)) elements viewport
       = canvasRect viewport).
Proof.
  split_and!; try done.
  - intros pid Hpid. unfold getParentRect.
    destruct (truthy (Some pid)) as [q|] eqn:Hq; [|done].
    apply truthy_Some in Hq as [= <-].
    case_bool_decide; [done|].
    destruct (List.find _ elements) as [p|] eqn:Hp; [|done].
    apply find_some in Hp as [Hp Hid].
    apply bool_decide_eq_true in Hid. destruct Hpid. rewrite <-Hid.
    by apply list_elem_of_fmap_2, list_elem_of_In.
  - intros before p after -> Hbefore Hrt. unfold getParentRect.
    destruct (truthy (Some (el_id p))) as [q|] eqn:Hq; [|done].
    apply truthy_Some in Hq as [= <-].
    case_bool_decide; [done|].
    assert (Hfind : List.find (λ el, bool_decide (el_id el = el_id p))
                      (before ++ p :: after) = Some p).
    { clear -Hbefore. induction before as [|b l IH]; simpl.
      - by rewrite bool_decide_eq_true_2.
      - rewrite fmap_cons in Hbefore.
        apply not_elem_of_cons in Hbefore as [Hne Hl].
        rewrite bool_decide_eq_false_2 by done. auto. }
    by rewrite Hfind, Hrt.
Qed.

Lemma getParentRect_falls_back_to_canvas_witness :
  getParentRect (Some (el_id scenarioD)) ([scenarioC] ++ scenarioD :: [])
    vp1280
  = canvasRect vp1280.
Proof.
  destruct (getParentRect_falls_back_to_canvas
              ([scenarioC] ++ scenarioD :: []) vp1280)
    as (_ & _ & _ & _ & H).
  apply (H [scenarioC] scenarioD []).
  - reflexivity.
  - by_evaluation.
  - reflexivity.
Defined.

(** X9. With unique ids, [getParentRect] applied to the pipeline's output
    returns, for the id of any output element other than the empty string
    and ['root'], that element's resolved rectangle and its name. *)
Theorem getParentRect_of_output (elements : list LayoutElement)
    (viewport : Viewport) :
  NoDup (el_id <$> elements) →
  ∃ out,
    calculateRuntimePositions elements viewport = Ok out
    ∧ ∀ p, p ∈ out → el_id p ≠ "" → el_id p ≠ "root" →
        ∃ r, el_runtime p = Some r
             ∧ getParentRect (Some (el_id p)) out viewport
               = mkNamedRect (rectOfRuntime r) (el_name p).
Proof.
  intros Hnd.
  destruct (calculateRuntimePositions_frame elements viewport Hnd)
    as (out & Hout & Hall).
  exists out. split; [done|].
  assert (Hids : el_id <$> out = el_id <$> elements).
  { clear -Hall. induction Hall as [|el e l k [r ->] _ IH]; simpl; [done|].
    by f_equal. }
  intros p Hp Hne Hroot.
  assert (∃ r, el_runtime p = Some r) as [r Hr].
  { apply list_elem_of_lookup in Hp as [i Hi].
    destruct (Forall2_lookup_r _ _ _ _ _ Hall Hi) as (el & _ & r & ->).
    by eexists. }
  exists r. split; [done|].
  unfold getParentRect. simpl.
  rewrite bool_decide_eq_false_2 by done.
  rewrite bool_decide_eq_false_2 by done.
  rewrite find_id_NoDup by (done || by rewrite Hids).
  by rewrite Hr.
Qed.

Lemma getParentRect_of_output_witness :
  ∃ out,
    calculateRuntimePositions [scenarioC; scenarioD] vp1280 = Ok out
    ∧ ∀ p, p ∈ out → el_id p ≠ "" → el_id p ≠ "root" →
        ∃ r, el_runtime p = Some r
             ∧ getParentRect (Some (el_id p)) out vp1280
               = mkNamedRect (rectOfRuntime r) (el_name p).
Proof. apply getParentRect_of_output. by_evaluation. Defined.

(** X10. [calculateElement] only adds to [finalMap]: given that no id on
    the resolution stack has an entry yet, every entry present before the
    call is unchanged after it, the ids on the stack still have no entry,
    and for an id that is not on the stack the element returned is the entry
    stored under that id. *)
Theorem finalMap_only_grows (viewport : Viewport)
    (withParents : list Placed) (fuel : nat) (id : string)
    (stack : list string) (m m' : gmap string LayoutElement)
    (r : option LayoutElement) :
  (∀ k, k ∈ stack → m !! k = None) →
  calculateElement viewport withParents fuel id stack m = Ok (r, m') →
  m ⊆ m'
  ∧ (∀ k, k ∈ stack → m' !! k = None)
  ∧ (id ∉ stack → is_Some r ∧ m' !! id = r).
Proof.
  intros Hst Hc.
  destruct (calculateElement_mono _ _ _ _ _ _ _ _ Hst Hc)
    as (Hsub & Hnone & Hret).
  split_and!; [done..|].
  intros Hid. destruct Hret as [(e & -> & He)|[? _]]; [|done].
  split; [by eexists|done].
Qed.

Lemma finalMap_only_grows_witness :
  ∃ r m',
    calculateElement vp1280 (assignParents (estimateAll [cycA; cycB] vp1280))
      3 "A" [] ∅ = Ok (r, m')
    ∧ ∅ ⊆ m'
    ∧ (∀ k, k ∈ [] → m' !! k = None)
    ∧ ("A" ∉ [] → is_Some r ∧ m' !! "A" = r).
Proof.
  destruct (calculateElement_total vp1280
              (assignParents (estimateAll [cycA; cycB] vp1280)) 3 "A" [] ∅)
    as (r & m' & Hc).
  - apply withParents_closed.
  - constructor.
  - intros x Hx. by inv Hx.
  - apply list_elem_of_In. simpl. auto.
  - simpl. lia.
  - exists r, m'. split; [exact Hc|].
    apply (finalMap_only_grows _ _ _ _ _ _ _ _ (λ k _, lookup_empty k) Hc).
Defined.

(** X11. The pipeline reads nothing of a [_runtime] its input carries: two
    inputs that agree on id, type, name and layout at every position give
    the same result, whatever [_runtime] each element holds or lacks. *)
Theorem stale_runtime_is_ignored (elements elements' : list LayoutElement)
    (viewport : Viewport) :
  persisted <$> elements = persisted <$> elements' →
  calculateRuntimePositions elements viewport
  = calculateRuntimePositions elements' viewport.
Proof. apply calculateRuntimePositions_persisted. Qed.

Lemma stale_runtime_is_ignored_witness :
  calculateRuntimePositions [scenarioC; scenarioD] vp1280
  = calculateRuntimePositions
      [set_runtime scenarioC (Some (mkRuntime 0 0 0 0 (Some "D")));
       scenarioD] vp1280.
Proof. apply stale_runtime_is_ignored. reflexivity. Defined.

(** * The property panel *)

(** X12. A click on a unit button always yields a unit of the clicked
    category. A click on the category the value is already in (percent or
    viewport) switches between the width and the height variant, and a
    second click restores the unit; a click on another category picks the
    width variant for x and width, the height variant for y and height. *)
Theorem unit_click_selects_category (value : LayoutValue) (axis : Axis)
    (currentPixels currentPixels' : Qc) (viewport : Viewport)
    (parentRect : Rect) (target : UnitCategory) :
  let clicked :=
    handleUnitClick value axis currentPixels viewport parentRect target in
  getUnitCategory (lv_unit clicked) = target
  ∧ (getUnitCategory (lv_unit value) = target → target ≠ CatPx →
     lv_unit clicked ≠ lv_unit value
     ∧ lv_unit (handleUnitClick clicked axis currentPixels' viewport
                  parentRect target) = lv_unit value)
  ∧ (getUnitCategory (lv_unit value) ≠ target →
     lv_unit clicked
     = match target with
       | CatPx => PX
       | CatPercent =>
           if isHorizontal axis then PERCENT_PARENT_W else PERCENT_PARENT_H
       | CatViewport => if isHorizontal axis then VW else VH
       end).
Proof.
  destruct value as [v u]. unfold handleUnitClick. simpl.
  destruct u, axis, target; vm_compute; split_and!; try done;
    intros; split; done.
Qed.

(** * The canvas *)

(** Order goals over [Qc] are sent to [lra] over [Q]. *)
Ltac qc_order :=
  unfold Qcle, Qclt, num, Qc_of_Z in *; simpl in *;
  repeat match goal with
  | H : context [Qred _] |- _ => rewrite Qred_correct in H
  | |- context [Qred _] => rewrite Qred_correct
  end; lra.

Ltac case_min_max :=
  unfold mathMax, mathMin; repeat case_bool_decide;
  repeat match goal with
  | H : ¬ (_ ≤ _)%Qc |- _ => apply Qcnot_le_lt in H
  end.

Lemma mathMax_ge_l a b : a ≤ mathMax a b.
Proof. case_min_max; [done|apply Qcle_refl]. Qed.

Lemma shrink_from_start_ge (w d : Qc) :
  num 10 ≤ w - mathMin (w - num 10) d.
Proof. case_min_max; qc_order. Qed.

Lemma grow_and_shrink_ge (w d : Qc) :
  num 10 ≤ mathMax (num 10) (w + d) - mathMin (w - num 10) d.
Proof. case_min_max; qc_order. Qed.

(** X15. A resize step never makes the box narrower or lower than 10 on an
    axis the handle acts on; a handle without ['w'] leaves the left edge
    and a handle without ['n'] the top edge where the drag started; an axis
    the handle does not act on keeps the initial extent. *)
Theorem resize_keeps_minimum_size (ds : DragState)
    (tr : TempRect) (scale clientX clientY : Qc) (h : string) :
  isDragging ds = false → isResizing ds = true →
  truthy (handle ds) = Some h → scale ≠ 0 →
  let init := initialRect ds in
  ∃ tr',
    handleMouseMove (Some ds) (Some tr) scale clientX clientY = Some tr'
    ∧ tr_id tr' = tr_id tr
    ∧ (includes h "e" = true ∨ includes h "w" = true → num 10 ≤ tr_w tr')
    ∧ (includes h "s" = true ∨ includes h "n" = true → num 10 ≤ tr_h tr')
    ∧ (includes h "w" = false → tr_x tr' = r_x init)
    ∧ (includes h "n" = false → tr_y tr' = r_y init)
    ∧ (includes h "e" = false → includes h "w" = false →
       tr_w tr' = r_width init)
    ∧ (includes h "s" = false → includes h "n" = false →
       tr_h tr' = r_height init).
Proof.
  intros Hd Hr Hh _ init. unfold handleMouseMove.
  rewrite Hd, Hr, Hh. fold init.
  destruct (includes h "e"), (includes h "w"), (includes h "s"),
    (includes h "n"); simpl; eexists; (split; [reflexivity|]); simpl;
    split_and!; try done; intros;
    repeat match goal with H : _ ∨ _ |- _ => destruct H end;
    try discriminate;
    auto using mathMax_ge_l, shrink_from_start_ge, grow_and_shrink_ge.
Qed.

Lemma resize_keeps_minimum_size_witness :
  ∃ tr',
    handleMouseMove
      (Some (mkDragState false true 0 0
               (mkRect (num 20) (num 20) (num 100) (num 60)) (Some "nw")))
      (Some (mkTempRect "D" (num 20) (num 20) (num 100) (num 60)))
      (num 2) (num 400) (num 400)
    = Some tr'
    ∧ tr_id tr' = "D"
    ∧ (includes "nw" "e" = true ∨ includes "nw" "w" = true →
       num 10 ≤ tr_w tr')
    ∧ (includes "nw" "s" = true ∨ includes "nw" "n" = true →
       num 10 ≤ tr_h tr')
    ∧ (includes "nw" "w" = false → tr_x tr' = num 20)
    ∧ (includes "nw" "n" = false → tr_y tr' = num 20)
    ∧ (includes "nw" "e" = false → includes "nw" "w" = false →
       tr_w tr' = num 100)
    ∧ (includes "nw" "s" = false → includes "nw" "n" = false →
       tr_h tr' = num 60).
Proof.
  apply (resize_keeps_minimum_size
           (mkDragState false true 0 0
              (mkRect (num 20) (num 20) (num 100) (num 60)) (Some "nw"))
           (mkTempRect "D" (num 20) (num 20) (num 100) (num 60))
           (num 2) (num 400) (num 400) "nw").
  - reflexivity.
  - reflexivity.
  - reflexivity.
  - by_evaluation.
Defined.

(** ** The drop *)

Lemma zarea_before (za zb aa ab : Qc) :
  ¬ 0 < (if bool_decide (zb - za ≠ 0) then zb - za else aa - ab)
  ↔ zb < za ∨ (za = zb ∧ aa ≤ ab).
Proof.
  case_bool_decide as Hz.
  - rewrite Qc_sub_pos. rewrite Qc_sub_zero in Hz.
    destruct (Qc_trichotomy za zb) as [Hlt|[Heq|Hgt]].
    + split; [done|]. intros [Hgt|[Heq _]]; [|done].
      destruct (Qclt_not_le _ _ Hlt). by apply Qclt_le_weak.
    + done.
    + split; [by left|]. intros _ Hlt.
      destruct (Qclt_not_le _ _ Hlt). by apply Qclt_le_weak.
  - rewrite Qc_sub_zero in Hz.
    rewrite Qc_sub_pos, <-Qcle_ngt. split; [by right|].
    intros [Hlt|[_ ?]]; [|done].
    rewrite Hz in Hlt. destruct (Qclt_not_eq _ _ Hlt). done.
Qed.

Lemma canvasCompare_before a b :
  ¬ 0 < canvasCompare a b ↔ canvasBefore a b.
Proof. apply zarea_before. Qed.

Lemma canvasBefore_total a b : canvasBefore a b ∨ canvasBefore b a.
Proof.
  unfold canvasBefore.
  destruct (Qc_trichotomy (canvasZ a) (canvasZ b)) as [Hlt|[Heq|Hgt]];
    auto.
  destruct (Qclt_le_dec (canvasArea b) (canvasArea a)) as [Hlt|Hle].
  - right; right. split; [done|]. by apply Qclt_le_weak.
  - left; by right.
Qed.

Lemma canvasBefore_trans a b c :
  canvasBefore a b → canvasBefore b c → canvasBefore a c.
Proof.
  unfold canvasBefore.
  intros [H1|[E1 H1]] [H2|[E2 H2]].
  - left. by eapply Qclt_trans.
  - left. by rewrite <-E2.
  - left. by rewrite E1.
  - right. split; [congruence|]. by eapply Qcle_trans.
Qed.

Lemma canvasIsPotentialParent_spec el cx cy q :
  canvasIsPotentialParent el cx cy q = true ↔ canvasCandidate el cx cy q.
Proof.
  unfold canvasIsPotentialParent, canvasCandidate.
  case_bool_decide as Hid; [intuition congruence|].
  destruct (el_runtime q) as [r|].
  - case_bool_decide as Hc.
    + split; [done|]. intros (_ & Hc' & _). done.
    + rewrite !andb_true_iff, !bool_decide_eq_true. split.
      * intros [[[? ?] ?] ?]. split_and!; [done..|]. by exists r.
      * intros (_ & _ & r' & [= <-] & [? ?] & [? ?]). done.
  - split; [done|]. intros (_ & _ & r & Hr & _). done.
Qed.

Lemma elem_of_canvasPotentialParents elements el tr q :
  q ∈ canvasPotentialParents elements el tr ↔
    q ∈ elements
    ∧ canvasCandidate el (tr_x tr + tr_w tr / num 2)
        (tr_y tr + tr_h tr / num 2) q.
Proof.
  unfold canvasPotentialParents.
  rewrite sort_perm, list_elem_of_In, filter_In, <-list_elem_of_In.
  by rewrite canvasIsPotentialParent_spec.
Qed.

(** The chosen parent is a candidate. *)
Lemma drop_parent_facts elements el tr :
  match dropParent elements el tr with
  | Some p =>
      p ∈ elements
      ∧ canvasCandidate el (tr_x tr + tr_w tr / num 2)
          (tr_y tr + tr_h tr / num 2) p
  | None => True
  end.
Proof.
  unfold dropParent.
  pose proof (elem_of_canvasPotentialParents elements el tr) as Hmem.
  destruct (canvasPotentialParents elements el tr) as [|p rest]; [done|].
  simpl. apply Hmem. left.
Qed.

(** X16. The parent a drop commits is an element of the list other than the
    dragged one, with a [_runtime] whose closed rectangle holds the centre
    of the dropped rectangle and with [isContainer] not [false]; among all
    such elements none has a higher z-order, and none of equal z-order a
    smaller area. When no element qualifies the drop commits no parent. *)
Theorem drop_parent_is_topmost_container (elements : list LayoutElement)
    (el : LayoutElement) (tr : TempRect) :
  let cx := tr_x tr + tr_w tr / num 2 in
  let cy := tr_y tr + tr_h tr / num 2 in
  match dropParent elements el tr with
  | Some p =>
      p ∈ elements ∧ canvasCandidate el cx cy p
      ∧ ∀ q, q ∈ elements → canvasCandidate el cx cy q → canvasBefore p q
  | None => ∀ q, q ∈ elements → ¬ canvasCandidate el cx cy q
  end.
Proof.
  intros cx cy. unfold dropParent.
  pose proof (sort_sorted canvasCompare canvasBefore canvasCompare_before
                canvasBefore_total canvasBefore_trans
                (List.filter (canvasIsPotentialParent el cx cy) elements))
    as Hsorted.
  pose proof (elem_of_canvasPotentialParents elements el tr) as Hmem.
  unfold canvasPotentialParents in *. fold cx cy in Hmem |- *.
  destruct (sort canvasCompare _) as [|p rest]; simpl.
  - intros q Hq Hc. by apply (not_elem_of_nil q), Hmem.
  - destruct (proj1 (Hmem p)) as [Hp Hpc]; [left|].
    split_and!; [done..|].
    intros q Hq Hc.
    assert (q ∈ p :: rest) as [->|Hin]%elem_of_cons by (by apply Hmem).
    + destruct (canvasBefore_total p p); done.
    + apply StronglySorted_inv in Hsorted as [_ Hall].
      by eapply Forall_forall in Hall.
Qed.

Lemma sort_insert_fmap {A B} (f : A → B) (cmpA : A → A → Qc)
    (cmpB : B → B → Qc) a l :
  (∀ a b, cmpB (f a) (f b) = cmpA a b) →
  sort_insert cmpB (f a) (f <$> l) = f <$> sort_insert cmpA a l.
Proof.
  intros Hcmp. induction l as [|b l IH]; [done|].
  rewrite fmap_cons. cbn [sort_insert]. rewrite Hcmp.
  case_bool_decide; rewrite !fmap_cons; [|done]. by rewrite IH.
Qed.

Lemma sort_fmap {A B} (f : A → B) (cmpA : A → A → Qc)
    (cmpB : B → B → Qc) l :
  (∀ a b, cmpB (f a) (f b) = cmpA a b) →
  sort cmpB (f <$> l) = f <$> sort cmpA l.
Proof.
  intros Hcmp. induction l as [|a l IH]; [done|].
  change (sort cmpB (f <$> a :: l))
    with (sort_insert cmpB (f a) (sort cmpB (f <$> l))).
  change (sort cmpA (a :: l)) with (sort_insert cmpA a (sort cmpA l)).
  rewrite IH. by apply sort_insert_fmap.
Qed.

Lemma as_layout_set_runtime (e : LayoutElement) r :
  el_runtime e = Some r → as_layout (set_runtime e r) = e.
Proof. destruct e. simpl. by intros ->. Qed.

Lemma canvas_filter_placedOf elements el tr :
  List.filter
    (canvasIsPotentialParent el (tr_x tr + tr_w tr / num 2)
       (tr_y tr + tr_h tr / num 2))
    elements
  = as_layout
    <$> List.filter (isPotentialParent (droppedAs el tr))
          (placedOf elements).
Proof.
  unfold placedOf. induction elements as [|e l IH]; [done|].
  cbn [List.filter omap list_omap].
  unfold canvasIsPotentialParent at 1.
  destruct (el_runtime e) as [r|] eqn:Hr; simpl.
  - unfold isPotentialParent at 1. simpl.
    unfold centerX, centerY. simpl.
    case_bool_decide; [done|].
    case_bool_decide; [done|].
    destruct (_ && _); [|done].
    rewrite fmap_cons, as_layout_set_runtime by done. by f_equal.
  - by case_bool_decide.
Qed.

(** X17. The drop chooses its parent as Pass 2 of the engine does: the
    sorted candidates of the canvas are the candidates Pass 2 computes for
    an element with the dropped rectangle among the elements that carry a
    [_runtime], that [_runtime] taken as their rectangle; so the committed
    [parentId] is the one Pass 2 assigns. *)
Theorem drop_parent_matches_pass2 (elements : list LayoutElement)
    (el : LayoutElement) (tr : TempRect) :
  canvasPotentialParents elements el tr
  = as_layout <$> potentialParents (placedOf elements) (droppedAs el tr)
  ∧ el_id <$> dropParent elements el tr
    = rt_parentId
        (el_runtime (assignParent (placedOf elements) (droppedAs el tr))).
Proof.
  assert (Heq : canvasPotentialParents elements el tr
    = as_layout <$> potentialParents (placedOf elements) (droppedAs el tr)).
  { unfold canvasPotentialParents, potentialParents.
    rewrite canvas_filter_placedOf. by apply sort_fmap. }
  split; [done|].
  unfold dropParent. rewrite Heq, assignParent_parentId.
  by destruct (potentialParents _ _).
Qed.

(** X18. A drop never lowers the z-order and lifts it above the new
    parent: when the dragged element and the parent both have a z-order, the
    committed z-order is above the parent's, not below the old one, and
    unchanged when the old one was already above the parent; without a
    parent it is unchanged. Units, anchors and [isContainer] are never
    touched by a drop. *)
Theorem drop_lifts_z_above_parent (elements : list LayoutElement)
    (viewport : Viewport) (el : LayoutElement) (tr : TempRect) :
  let l := el_layout el in
  let l' := dropLayout elements viewport el tr in
  match dropParent elements el tr with
  | Some p =>
      ∀ z zp, lc_zIndex l = Some z → lc_zIndex (el_layout p) = Some zp →
        ∃ z', lc_zIndex l' = Some z' ∧ zp < z' ∧ z ≤ z'
              ∧ (zp < z → z' = z)
  | None => lc_zIndex l' = lc_zIndex l
  end
  ∧ lv_unit (lc_x l') = lv_unit (lc_x l)
  ∧ lv_unit (lc_y l') = lv_unit (lc_y l)
  ∧ lv_unit (lc_width l') = lv_unit (lc_width l)
  ∧ lv_unit (lc_height l') = lv_unit (lc_height l)
  ∧ lc_anchorX l' = lc_anchorX l
  ∧ lc_anchorY l' = lc_anchorY l
  ∧ lc_isContainer l' = lc_isContainer l.
Proof.
  intros l l'. split; [|done].
  unfold l', dropLayout, dropZIndex. simpl.
  destruct (dropParent elements el tr) as [p|]; [|done].
  intros z zp Hz Hzp. fold l. rewrite Hz, Hzp. simpl.
  case_bool_decide as Hle; simpl.
  - exists (zp + 1). split_and!; [done|qc_order..|].
    intros Hlt. destruct (Qclt_not_le _ _ Hlt Hle).
  - apply Qcnot_le_lt in Hle. exists z.
    split_and!; [done|done|apply Qcle_refl|done].
Qed.

(** X20. A drop for an id no element has hands nothing to the callback.
    With unique ids, a drop of element [el] hands over a list of the same
    length in which every other element is untouched and [el] keeps its id,
    type and name, takes the back-calculated layout, and carries the dropped
    rectangle as [_runtime], with a [parentId] that is never its own id. *)
Theorem drop_commit_frame (ds : DragState) (tr : TempRect)
    (elements : list LayoutElement) (viewport : Viewport) :
  (tr_id tr ∉ el_id <$> elements →
   handleMouseUp (Some ds) (Some tr) elements viewport = None)
  ∧ (∀ el, NoDup (el_id <$> elements) → el ∈ elements →
       el_id el = tr_id tr →
       ∃ out,
         handleMouseUp (Some ds) (Some tr) elements viewport = Some out
         ∧ length out = length elements
         ∧ (∀ i e, elements !! i = Some e → e ≠ el → out !! i = Some e)
         ∧ (∀ i, elements !! i = Some el →
              ∃ e', out !! i = Some e'
                ∧ el_id e' = el_id el ∧ el_type e' = el_type el
                ∧ el_name e' = el_name el
                ∧ el_layout e' = dropLayout elements viewport el tr
                ∧ el_runtime e' = Some (dropRuntime elements el tr)
                ∧ parentIdOf e' ≠ Some (Some (el_id e')))).
Proof.
  split.
  { intros Hid. unfold handleMouseUp. by rewrite find_id_None. }
  intros el Hnd Hel Hid. unfold handleMouseUp.
  rewrite <-Hid, find_id_NoDup by done.
  eexists. split; [reflexivity|].
  split; [apply length_map|].
  split.
  - intros i e Hi Hne.
    change (map ?f elements) with (f <$> elements).
    rewrite list_lookup_fmap, Hi. simpl.
    rewrite bool_decide_eq_false_2; [done|].
    intros Heq. apply Hne.
    eapply (NoDup_fmap_elem_eq el_id); [done| |done|done].
    by eapply list_elem_of_lookup_2.
  - intros i Hi.
    change (map ?f elements) with (f <$> elements).
    rewrite list_lookup_fmap, Hi. simpl.
    rewrite bool_decide_eq_true_2 by done.
    eexists. split; [reflexivity|]. split_and!; try done.
    unfold parentIdOf, dropRuntime. simpl.
    pose proof (drop_parent_facts elements el tr) as Hp.
    destruct (dropParent elements el tr) as [p|]; [|done].
    simpl. intros [= Heq]. by destruct Hp as [_ [Hne _]].
Qed.

Lemma drop_commit_frame_witness :
  ∃ out,
    handleMouseUp (Some (mkDragState true false 0 0 emptyRect None))
      (Some (mkTempRect "D" (num 30) (num 40) (num 50) (num 50)))
      [scenarioC; scenarioD] vp1280 = Some out
    ∧ length out = length [scenarioC; scenarioD]
    ∧ (∀ i e, [scenarioC; scenarioD] !! i = Some e → e ≠ scenarioD →
         out !! i = Some e)
    ∧ (∀ i, [scenarioC; scenarioD] !! i = Some scenarioD →
         ∃ e', out !! i = Some e'
           ∧ el_id e' = el_id scenarioD ∧ el_type e' = el_type scenarioD
           ∧ el_name e' = el_name scenarioD
           ∧ el_layout e'
             = dropLayout [scenarioC; scenarioD] vp1280 scenarioD
                 (mkTempRect "D" (num 30) (num 40) (num 50) (num 50))
           ∧ el_runtime e'
             = Some
                 (dropRuntime [scenarioC; scenarioD] scenarioD
                    (mkTempRect "D" (num 30) (num 40) (num 50) (num 50)))
           ∧ parentIdOf e' ≠ Some (Some (el_id e'))).
Proof.
  apply (drop_commit_frame (mkDragState true false 0 0 emptyRect None)
           (mkTempRect "D" (num 30) (num 40) (num 50) (num 50))
           [scenarioC; scenarioD] vp1280).
  - by_evaluation.
  - apply list_elem_of_In. simpl. auto.
  - reflexivity.
Defined.

(** * Edits that the engine does not see *)

Lemma isPotentialParent_sameBox c c' p p' :
  sameBox c c' → sameBox p p' →
  isPotentialParent c p = isPotentialParent c' p'.
Proof.
  intros (Hic & Hrc & _) (Hip & Hrp & _ & Hcp).
  unfold isPotentialParent. by rewrite Hic, Hrc, Hip, Hrp, Hcp.
Qed.

Lemma compareParents_sameBox a a' b b' :
  sameBox a a' → sameBox b b' →
  compareParents a b = compareParents a' b'.
Proof.
  intros (_ & Hra & Hza & _) (_ & Hrb & Hzb & _).
  unfold compareParents, zOf, areaOf. by rewrite Hra, Hza, Hrb, Hzb.
Qed.

Lemma filter_sameBox c c' l l' :
  sameBox c c' → Forall2 sameBox l l' →
  Forall2 sameBox (List.filter (isPotentialParent c) l)
    (List.filter (isPotentialParent c') l').
Proof.
  intros Hc. induction 1 as [|p p' l l' Hp _ IH]; simpl; [constructor|].
  rewrite (isPotentialParent_sameBox c c' p p') by done.
  destruct (isPotentialParent c' p'); [by constructor|done].
Qed.

Lemma sort_insert_sameBox a a' l l' :
  sameBox a a' → Forall2 sameBox l l' →
  Forall2 sameBox (sort_insert compareParents a l)
    (sort_insert compareParents a' l').
Proof.
  intros Ha. induction 1 as [|b b' l l' Hb Hl IH]; simpl.
  { constructor; [done|constructor]. }
  rewrite (compareParents_sameBox a a' b b') by done.
  case_bool_decide; constructor; try done. by constructor.
Qed.

Lemma sort_sameBox l l' :
  Forall2 sameBox l l' →
  Forall2 sameBox (sort compareParents l) (sort compareParents l').
Proof.
  induction 1 as [|a a' l l' Ha _ IH]; simpl; [constructor|].
  by apply sort_insert_sameBox.
Qed.

Lemma assignParent_sameBox est est' c c' :
  Forall2 sameBox est est' → sameBox c c' →
  sameBox (assignParent est c) (assignParent est' c').
Proof.
  intros Hest Hc. unfold assignParent, potentialParents.
  pose proof (sort_sameBox _ _ (filter_sameBox c c' est est' Hc Hest))
    as Hs.
  destruct Hs as [|p p' ? ? Hp _]; [done|].
  destruct Hc as (Hid & Hrt & Hz & Hcon), Hp as (Hpid & _).
  unfold sameBox. simpl. by rewrite Hid, Hrt, Hpid.
Qed.

Lemma findById_sameResolution viewport wp wp' id :
  Forall2 (sameResolution viewport) wp wp' →
  option_Forall2 (sameResolution viewport) (findById wp id)
    (findById wp' id).
Proof.
  unfold findById.
  induction 1 as [|a b l l' Hab _ IH]; simpl; [constructor|].
  pose proof Hab as [(Hid & _) _]. rewrite <-Hid.
  case_bool_decide; [by constructor|done].
Qed.

Lemma sameRuntimes_insert m m' id e e' :
  sameRuntimes m m' → sameRuntime e e' →
  sameRuntimes (<[id:=e]> m) (<[id:=e']> m').
Proof.
  intros Hm He k. destruct (decide (id = k)) as [->|Hne].
  - rewrite !lookup_insert_eq. by constructor.
  - rewrite !lookup_insert_ne by done. apply Hm.
Qed.

Lemma parentRectOf_sameRuntime viewport pe pe' :
  option_Forall2 sameRuntime pe pe' →
  parentRectOf viewport pe = parentRectOf viewport pe'.
Proof.
  destruct 1 as [e e' He|]; [|done]. unfold parentRectOf. by rewrite He.
Qed.

Lemma calculateElement_sim viewport wp wp' fuel id stack m m' :
  Forall2 (sameResolution viewport) wp wp' →
  sameRuntimes m m' →
  sameOutcome
    (λ x y, option_Forall2 sameRuntime x.1 y.1 ∧ sameRuntimes x.2 y.2)
    (calculateElement viewport wp fuel id stack m)
    (calculateElement viewport wp' fuel id stack m').
Proof.
  intros Hwp. revert id stack m m'.
  induction fuel as [|fuel IH]; intros id stack m m' Hm; [done|].
  rewrite !calculateElement_unfold.
  destruct (Hm id) as [e e' He|]; [simpl; split; by try constructor|].
  case_bool_decide.
  { simpl. split; [|done].
    destruct (findById_sameResolution viewport wp wp' id Hwp)
      as [a b [(_ & Hrt & _) _]|]; constructor.
    unfold sameRuntime, as_layout. simpl. by rewrite Hrt. }
  destruct (findById_sameResolution viewport wp wp' id Hwp)
    as [a b [(_ & Hrt & _) Hfin]|]; [|done].
  rewrite <-Hrt.
  destruct (truthy (rt_parentId (el_runtime a))) as [pid|] eqn:Hpid; simpl.
  - specialize (IH pid (stack ++ [id]) m m' Hm).
    destruct (calculateElement viewport wp fuel pid (stack ++ [id]) m)
      as [[pe m1]|], (calculateElement viewport wp' fuel pid _ m')
      as [[pe' m1']|]; simpl in *; try done.
    destruct IH as [Hpe Hm1].
    rewrite (parentRectOf_sameRuntime viewport pe pe' Hpe).
    assert (sameRuntime (finalize viewport a (parentRectOf viewport pe'))
              (finalize viewport b (parentRectOf viewport pe'))) as Hres.
    { apply Hfin. congruence. }
    split; [by constructor|by apply sameRuntimes_insert].
  - assert (sameRuntime (finalize viewport a (viewportRect viewport))
              (finalize viewport b (viewportRect viewport))) as Hres.
    { by apply Hfin. }
    split; [by constructor|by apply sameRuntimes_insert].
Qed.

Lemma finalizeAll_sim viewport wp wp' fuel :
  Forall2 (sameResolution viewport) wp wp' →
  sameOutcome sameRuntimes (finalizeAll viewport wp fuel)
    (finalizeAll viewport wp' fuel).
Proof.
  intros Hwp. unfold finalizeAll.
  assert (Hgen : ∀ l l' m m',
    Forall2 (sameResolution viewport) l l' → sameRuntimes m m' →
    sameOutcome sameRuntimes
      (forEachM
         (λ m (el : Placed),
            '(_, m') ← calculateElement viewport wp fuel (el_id el) [] m;
            Ok m') l m)
      (forEachM
         (λ m (el : Placed),
            '(_, m') ← calculateElement viewport wp' fuel (el_id el) [] m;
            Ok m') l' m')).
  { intros l l' m m' Hl. revert m m'.
    induction Hl as [|a b l l' [(Hid & _) _] _ IH]; intros m m' Hm;
      simpl; [done|].
    rewrite <-Hid.
    pose proof (calculateElement_sim viewport wp wp' fuel (el_id a) [] m m'
                  Hwp Hm) as Hc.
    destruct (calculateElement viewport wp fuel (el_id a) [] m)
      as [[r m1]|], (calculateElement viewport wp' fuel (el_id a) [] m')
      as [[r' m1']|]; simpl in *; try done.
    apply IH, Hc. }
  apply Hgen; [done|]. intros id. rewrite !lookup_empty. constructor.
Qed.

Lemma mapR_sim (m m' : gmap string LayoutElement)
    (l l' : list LayoutElement) :
  sameRuntimes m m' →
  Forall2 (λ a b, el_id a = el_id b) l l' →
  sameOutcome (Forall2 sameRuntime)
    (mapR (λ el, match m !! el_id el with
                 | Some e => Ok e
                 | None => Err NonNullViolated
                 end) l)
    (mapR (λ el, match m' !! el_id el with
                 | Some e => Ok e
                 | None => Err NonNullViolated
                 end) l').
Proof.
  intros Hm. induction 1 as [|a b l l' Hid _ IH]; simpl; [constructor|].
  rewrite <-Hid. destruct (Hm (el_id a)) as [e e' He|]; simpl; [|done].
  destruct (mapR _ l) as [out|], (mapR _ l') as [out'|]; simpl in *;
    try done.
  by constructor.
Qed.

Lemma estimate_runtime_rect viewport (el : LayoutElement) est :
  el_runtime
    (finalize viewport (assignParent est (estimate viewport el))
       (viewportRect viewport))
  = Some
      (mkRuntime (rt_x (el_runtime (estimate viewport el)))
         (rt_y (el_runtime (estimate viewport el)))
         (rt_width (el_runtime (estimate viewport el)))
         (rt_height (el_runtime (estimate viewport el)))
         (rt_parentId
            (el_runtime (assignParent est (estimate viewport el))))).
Proof. unfold finalize. simpl. by rewrite el_layout_assignParent. Qed.

Lemma finalize_runtime_ext viewport (a b : Placed) R :
  el_layout a = el_layout b →
  rt_parentId (el_runtime a) = rt_parentId (el_runtime b) →
  el_runtime (finalize viewport a R) = el_runtime (finalize viewport b R).
Proof. unfold finalize. simpl. by intros -> ->. Qed.

Lemma withParents_sameResolution elements elements' viewport :
  Forall2 (estimateKeepingEdit elements viewport) elements elements' →
  Forall2 (sameResolution viewport)
    (assignParents (estimateAll elements viewport))
    (assignParents (estimateAll elements' viewport)).
Proof.
  intros Hall.
  set (est := estimateAll elements viewport).
  set (est' := estimateAll elements' viewport).
  assert (Hbox : ∀ el el', estimateKeepingEdit elements viewport el el' →
                   sameBox (estimate viewport el) (estimate viewport el')).
  { intros el el' (Hid & Hz & Hc & Hrt & _). by split_and!. }
  assert (Hest : Forall2 sameBox est est').
  { unfold est, est', estimateAll.
    apply Forall2_fmap. eapply Forall2_impl; [exact Hall|]. auto. }
  unfold assignParents. fold est est'.
  unfold est at 2, est' at 2, estimateAll.
  change (map ?f (map ?g ?l)) with (f <$> (g <$> l)).
  apply Forall2_fmap, Forall2_fmap.
  eapply Forall2_impl; [exact Hall|].
  intros el el' Hedit.
  pose proof (assignParent_sameBox est est' _ _ Hest (Hbox _ _ Hedit))
    as Hsame.
  split; [done|].
  intros R HR.
  destruct Hedit as (Hid & Hz & Hc & Hrt & [Hl|Hroot]).
  - apply finalize_runtime_ext.
    + by rewrite !el_layout_assignParent.
    + by destruct Hsame as (_ & -> & _).
  - fold est in Hroot. rewrite (HR Hroot).
    rewrite !estimate_runtime_rect, Hrt.
    by destruct Hsame as (_ & -> & _).
Qed.

Lemma calculateRuntimePositions_sim elements elements' viewport :
  Forall2 (estimateKeepingEdit elements viewport) elements elements' →
  ∃ out out',
    calculateRuntimePositions elements viewport = Ok out
    ∧ calculateRuntimePositions elements' viewport = Ok out'
    ∧ el_runtime <$> out' = el_runtime <$> out.
Proof.
  intros Hall.
  destruct (calculateRuntimePositions_spec elements viewport)
    as (out & Hout & _).
  destruct (calculateRuntimePositions_spec elements' viewport)
    as (out' & Hout' & _).
  exists out, out'. split; [done|]. split; [done|].
  pose proof (withParents_sameResolution _ _ _ Hall) as Hwp.
  pose proof (finalizeAll_sim viewport _ _
                (S (length (assignParents (estimateAll elements viewport))))
                Hwp) as Hfin.
  unfold calculateRuntimePositions in Hout, Hout'.
  rewrite <-(Forall2_length _ _ _ Hwp) in Hout'.
  destruct (finalizeAll viewport
              (assignParents (estimateAll elements viewport)) _)
    as [m|]; [|done].
  destruct (finalizeAll viewport
              (assignParents (estimateAll elements' viewport)) _)
    as [m'|]; [|done].
  simpl in Hfin, Hout, Hout'.
  pose proof (mapR_sim m m' elements elements' Hfin) as Hmap.
  rewrite Hout, Hout' in Hmap. simpl in Hmap.
  assert (Hrt : Forall2 sameRuntime out out').
  { apply Hmap. eapply Forall2_impl; [exact Hall|].
    by intros el el' (-> & _). }
  clear -Hrt. induction Hrt as [|e e' l l' He _ IH]; [done|].
  rewrite !fmap_cons. by rewrite He, IH.
Qed.

Lemma root_edit_sim (elements : list LayoutElement) (viewport : Viewport)
    (k : nat) (el el' : LayoutElement) :
  elements !! k = Some el →
  el_id el' = el_id el →
  lc_zIndex (el_layout el') = lc_zIndex (el_layout el) →
  lc_isContainer (el_layout el') = lc_isContainer (el_layout el) →
  el_runtime (estimate viewport el') = el_runtime (estimate viewport el) →
  truthy
    (rt_parentId
       (el_runtime
          (assignParent (estimateAll elements viewport)
             (estimate viewport el)))) = None →
  ∃ out out',
    calculateRuntimePositions elements viewport = Ok out
    ∧ calculateRuntimePositions (<[k:=el']> elements) viewport = Ok out'
    ∧ el_runtime <$> out' = el_runtime <$> out.
Proof.
  intros Hk Hid Hz Hc Hrt Hroot.
  apply calculateRuntimePositions_sim.
  rewrite <-(list_insert_id elements k el) at 2 by done.
  apply Forall2_insert; [|by split_and!; auto].
  apply Forall_Forall2_diag, Forall_forall.
  intros e _. split_and!; auto.
Qed.

(** X21. An edit that Pass 1 cannot see moves nothing. Replace one element
    by another with the same id, z-order and [isContainer] whose layout
    gives the same Pass-1 rectangle; if Pass 2 leaves that element without a
    parent, the pipeline gives every element of the edited list the
    [_runtime] it gave before: rectangles and parents are all unchanged. *)
Theorem root_edit_keeping_estimate_moves_nothing
    (elements : list LayoutElement) (viewport : Viewport) (k : nat)
    (el el' : LayoutElement) :
  elements !! k = Some el →
  el_id el' = el_id el →
  lc_zIndex (el_layout el') = lc_zIndex (el_layout el) →
  lc_isContainer (el_layout el') = lc_isContainer (el_layout el) →
  el_runtime (estimate viewport el') = el_runtime (estimate viewport el) →
  truthy
    (rt_parentId
       (el_runtime
          (assignParent (estimateAll elements viewport)
             (estimate viewport el)))) = None →
  ∃ out out',
    calculateRuntimePositions elements viewport = Ok out
    ∧ calculateRuntimePositions (<[k:=el']> elements) viewport = Ok out'
    ∧ el_runtime <$> out' = el_runtime <$> out.
Proof. apply root_edit_sim. Qed.

Lemma root_edit_keeping_estimate_moves_nothing_witness :
  ∃ out out',
    calculateRuntimePositions [scenarioC; scenarioD] vp1280 = Ok out
    ∧ calculateRuntimePositions
        (<[0%nat := set_runtime
                      (box "C" 0 0 640 400 1 (Some true)) None]>
           [scenarioC; scenarioD]) vp1280 = Ok out'
    ∧ el_runtime <$> out' = el_runtime <$> out.
Proof.
  apply (root_edit_keeping_estimate_moves_nothing [scenarioC; scenarioD]
           vp1280 0 scenarioC).
  - reflexivity.
  - reflexivity.
  - reflexivity.
  - reflexivity.
  - by_evaluation.
  - by_evaluation.
Defined.

(** ** Zoom *)

Lemma mathMax_bounds lo x hi : lo ≤ hi → x ≤ hi → lo ≤ mathMax lo x ≤ hi.
Proof.
  intros Hlo Hx. unfold mathMax.
  case_bool_decide; split; auto using Qcle_refl.
Qed.

Lemma mathMin_le_r x y : mathMin x y ≤ y.
Proof.
  unfold mathMin. case_bool_decide; [done|apply Qcle_refl].
Qed.

Lemma mathMinInf_le x y : mathMinInf x y ≤ y.
Proof. destruct x; simpl; [apply mathMin_le_r|apply Qcle_refl]. Qed.

Lemma zoom_out_range (lo lo' hi step s : Qc) :
  lo ≤ lo' → lo' ≤ hi → 0 ≤ step → lo ≤ s ≤ hi →
  lo ≤ mathMax lo' (s - step) ≤ hi.
Proof. intros ??? [??]. split; case_min_max; qc_order. Qed.

Lemma zoom_in_range (lo hi step s : Qc) :
  lo ≤ hi → 0 ≤ step → lo ≤ s ≤ hi →
  lo ≤ mathMin hi (s + step) ≤ hi.
Proof. intros ?? [??]. split; case_min_max; qc_order. Qed.

Lemma zoomStep_range scale a :
  num 1 / num 10 ≤ scale ≤ num 2 →
  num 1 / num 10 ≤ zoomStep scale a ≤ num 2.
Proof.
  intros Hs.
  destruct a as [[[w h]|] viewport| | |]; simpl; try done.
  - case_match; [|done].
    apply mathMax_bounds; [by_evaluation|].
    eapply Qcle_trans; [apply mathMinInf_le|].
    eapply Qcle_trans; [apply mathMinInf_le|]. by_evaluation.
  - apply zoom_out_range; [by_evaluation..|done].
  - apply zoom_in_range; [by_evaluation..|done].
Qed.

Lemma scaleAfter_range actions :
  num 1 / num 10 ≤ scaleAfter actions ≤ num 2.
Proof.
  unfold scaleAfter.
  induction actions as [|a actions IH] using rev_ind; simpl.
  - split; by_evaluation.
  - rewrite foldl_app. simpl. by apply zoomStep_range.
Qed.

Lemma tenth_pos : 0 < num 1 / num 10.
Proof. by_evaluation. Qed.

(** X24. The zoom factor never leaves [0.1, 2], whatever sequence of fit,
    zoom-out, zoom-in and reset actions follows the initial value 1 and
    whatever the workspace and viewport sizes of each fit; so it is never 0,
    the number the canvas divides mouse distances by. Right after the
    zoom-out button it is at least 0.2. *)
Theorem scale_stays_in_range (actions : list ZoomAction) :
  num 1 / num 10 ≤ scaleAfter actions ≤ num 2
  ∧ scaleAfter actions ≠ 0
  ∧ num 2 / num 10 ≤ scaleAfter (actions ++ [ZoomOut]).
Proof.
  pose proof (scaleAfter_range actions) as [Hlo Hhi].
  split; [done|]. split.
  - intros H0. rewrite H0 in Hlo.
    apply Qcle_not_lt in Hlo. apply Hlo, tenth_pos.
  - unfold scaleAfter. rewrite foldl_app. simpl. apply mathMax_ge_l.
Qed.

Lemma fit_largest (t X Y one : Qc) :
  let s := mathMax t (mathMin X (mathMin Y one)) in
  t ≤ s ∧ s ≤ mathMax t one
  ∧ (s = t ∨ (s ≤ X ∧ s ≤ Y))
  ∧ (∀ r, r ≤ one → r ≤ X → r ≤ Y → r ≤ s).
Proof.
  intros s. subst s. split_and!.
  - apply mathMax_ge_l.
  - case_min_max; qc_order.
  - case_min_max; auto; right; split; qc_order.
  - intros r H1 HX HY. case_min_max; qc_order.
Qed.



(** ** Layers *)

Lemma StronglySorted_lookup_2 {A} (R : relation A) (l : list A) :
  (∀ i j x y, (i < j)%nat → l !! i = Some x → l !! j = Some y → R x y) →
  StronglySorted R l.
Proof.
  induction l as [|a l IH]; intros H; constructor.
  - apply IH. intros i j x y Hij Hi Hj.
    apply (H (S i) (S j)); [lia|done..].
  - apply Forall_lookup. intros j y Hj.
    apply (H 0%nat (S j)); [lia|done..].
Qed.

Lemma StronglySorted_impl_elem {A} (R R' : relation A) (l : list A) :
  (∀ x y, x ∈ l → y ∈ l → R x y → R' x y) →
  StronglySorted R l → StronglySorted R' l.
Proof.
  intros H Hl. induction Hl as [|a l Hl IH Ha]; constructor.
  - apply IH. intros x y Hx Hy. apply H; by right.
  - apply Forall_forall. intros y Hy.
    apply H; [by left|by right|].
    by eapply Forall_forall in Ha.
Qed.

Lemma indexOf_Some id l i :
  indexOf id l = Some i ↔
  l !! i = Some id ∧ ∀ j, (j < i)%nat → l !! j ≠ Some id.
Proof.
  unfold indexOf. split.
  - intros H. apply fmap_Some in H as ([i' x] & H & ->). simpl.
    apply list_find_Some in H as (Hi & -> & Hmin). split; [done|].
    intros j Hj Hl. by apply (Hmin j id).
  - intros [Hi Hmin]. apply fmap_Some. exists (i, id). split; [|done].
    apply list_find_Some. split; [done|]. split; [done|].
    intros j y Hj Hlt ->. by apply (Hmin j).
Qed.

Lemma indexOf_NoDup id l i :
  NoDup l → l !! i = Some id → indexOf id l = Some i.
Proof.
  intros Hnd Hi. apply indexOf_Some. split; [done|].
  intros j Hj Hl.
  pose proof (NoDup_lookup _ _ _ _ Hnd Hi Hl). lia.
Qed.

Lemma indexOf_elem_of id l : id ∈ l → ∃ i, indexOf id l = Some i.
Proof.
  intros Hin. unfold indexOf.
  destruct (list_find (λ x, x = id) l) as [[i x]|] eqn:H; [by eexists|].
  apply list_find_None in H.
  by eapply Forall_forall in H.
Qed.

Lemma indexOf_None id l : indexOf id l = None ↔ id ∉ l.
Proof.
  split.
  - intros H Hin. apply indexOf_elem_of in Hin as [i Hi]. congruence.
  - intros Hin. unfold indexOf.
    destruct (list_find (λ x, x = id) l) as [[i x]|] eqn:H; [|done].
    apply list_find_Some in H as (Hi & -> & _).
    destruct Hin. by eapply list_elem_of_lookup_2.
Qed.

Lemma listedBefore_sorted sortedIds :
  NoDup sortedIds → StronglySorted (listedBefore sortedIds) sortedIds.
Proof.
  intros Hnd. apply StronglySorted_lookup_2.
  intros i j x y Hij Hi Hj. exists i, j.
  split; [by apply indexOf_NoDup|].
  split; [by apply indexOf_NoDup|lia].
Qed.

Lemma listedBefore_antisymm sortedIds x y :
  listedBefore sortedIds x y → listedBefore sortedIds y x → x = y.
Proof.
  intros (i & j & Hi & Hj & Hij) (j' & i' & Hj' & Hi' & Hji).
  assert (i = j) as -> by (simplify_eq; lia).
  apply indexOf_Some in Hi as [Hi _]. apply indexOf_Some in Hj as [Hj _].
  congruence.
Qed.

Lemma layerCompare_before a b :
  ¬ 0 < layerCompare a b ↔ canvasZ b ≤ canvasZ a.
Proof.
  unfold layerCompare. rewrite Qc_sub_pos. split.
  - apply Qcnot_lt_le.
  - apply Qcle_not_lt.
Qed.

Lemma sortedElements_sorted elements :
  StronglySorted (λ a b, canvasZ b ≤ canvasZ a) (sortedElements elements).
Proof.
  apply sort_sorted.
  - apply layerCompare_before.
  - intros a b. destruct (Qclt_le_dec (canvasZ a) (canvasZ b)); auto.
    right. by apply Qclt_le_weak.
  - intros a b c Hab Hbc. by eapply Qcle_trans.
Qed.

(** Elements ranked by a list of ids are shown in the order of the list. *)
Lemma sortedElements_by_rank (sortedIds : list string)
    (out : list LayoutElement) :
  NoDup sortedIds →
  el_id <$> out ≡ₚ sortedIds →
  (∀ e, e ∈ out → ∃ i,
     indexOf (el_id e) sortedIds = Some i
     ∧ lc_zIndex (el_layout e)
       = Some (num (Z.of_nat (length sortedIds) - Z.of_nat i))) →
  el_id <$> sortedElements out = sortedIds.
Proof.
  intros Hnd Hperm Hrank.
  apply (StronglySorted_unique_strong (listedBefore sortedIds)).
  - intros x y _ _. apply listedBefore_antisymm.
  - apply (StronglySorted_fmap _ (λ a b, listedBefore sortedIds (el_id a)
                                           (el_id b))); [done|].
    eapply StronglySorted_impl_elem; [|apply sortedElements_sorted].
    intros a b Ha Hb Hab. simpl in Hab.
    unfold sortedElements in Ha, Hb. rewrite sort_perm in Ha, Hb.
    destruct (Hrank a Ha) as (i & Hi & Hza).
    destruct (Hrank b Hb) as (j & Hj & Hzb).
    exists i, j. split; [done|]. split; [done|].
    unfold canvasZ in Hab. rewrite Hza, Hzb in Hab. simpl in Hab.
    apply Z2Qc_inj_le in Hab. lia.
  - by apply listedBefore_sorted.
  - unfold sortedElements. by rewrite sort_perm.
Qed.

Lemma el_id_reordered sortedIds el :
  el_id (reordered sortedIds el) = el_id el.
Proof. unfold reordered. by destruct (indexOf _ _). Qed.

Lemma handleLayerReorder_frame sortedIds prev viewport :
  NoDup (el_id <$> prev) →
  ∃ out,
    handleLayerReorder sortedIds prev viewport = Ok out
    ∧ Forall2 (λ el e, ∃ r, e = set_runtime (reordered sortedIds el) (Some r))
        prev out.
Proof.
  intros Hnd. unfold handleLayerReorder.
  change (map ?f prev) with (f <$> prev).
  destruct (calculateRuntimePositions_frame (reordered sortedIds <$> prev)
              viewport) as (out & Hout & Hall).
  { rewrite <-list_fmap_compose.
    erewrite list_fmap_ext; [exact Hnd|].
    intros i el _. apply el_id_reordered. }
  exists out. split; [exact Hout|].
  by apply Forall2_fmap_l in Hall.
Qed.

Lemma handleLayerReorder_order sortedIds prev viewport :
  NoDup (el_id <$> prev) → sortedIds ≡ₚ el_id <$> prev →
  ∃ out,
    handleLayerReorder sortedIds prev viewport = Ok out
    ∧ el_id <$> out = el_id <$> prev
    ∧ el_id <$> sortedElements out = sortedIds
    ∧ ∀ i e, sortedElements out !! i = Some e →
        lc_zIndex (el_layout e)
        = Some (num (Z.of_nat (length sortedIds) - Z.of_nat i)).
Proof.
  intros Hnd Hperm.
  destruct (handleLayerReorder_frame sortedIds prev viewport Hnd)
    as (out & Hout & Hall).
  exists out. split; [done|].
  assert (el_id <$> out = el_id <$> prev) as Hids.
  { symmetry. apply list_eq_Forall2, Forall2_fmap.
    eapply Forall2_impl; [exact Hall|].
    intros el e [r ->]. simpl. by rewrite el_id_reordered. }
  assert (NoDup sortedIds) as Hnd' by (by rewrite Hperm).
  assert (Hrank : ∀ e, e ∈ out → ∃ i,
    indexOf (el_id e) sortedIds = Some i
    ∧ lc_zIndex (el_layout e)
      = Some (num (Z.of_nat (length sortedIds) - Z.of_nat i))).
  { intros e He.
    apply list_elem_of_lookup in He as [k Hk].
    destruct (Forall2_lookup_r _ _ _ _ _ Hall Hk) as (el & Hel & r & ->).
    simpl. rewrite el_id_reordered. unfold reordered.
    destruct (indexOf_elem_of (el_id el) sortedIds) as [i Hi].
    { rewrite Hperm. apply list_elem_of_fmap_2.
      by eapply list_elem_of_lookup_2. }
    rewrite Hi. eauto. }
  assert (el_id <$> sortedElements out = sortedIds) as Horder.
  { apply sortedElements_by_rank; [done| |done]. by rewrite Hids. }
  split; [done|]. split; [done|].
  intros i e Hi.
  destruct (Hrank e) as (j & Hj & ->).
  { unfold sortedElements in Hi.
    eapply list_elem_of_lookup_2 in Hi. by rewrite sort_perm in Hi. }
  assert (sortedIds !! i = Some (el_id e)) as Hi'.
  { rewrite <-Horder, list_lookup_fmap, Hi. done. }
  apply (indexOf_NoDup _ _ _ Hnd') in Hi'.
  by simplify_eq.
Qed.

Lemma indexOf_fmap_id id (l : list LayoutElement) :
  indexOf id (el_id <$> l) = fst <$> list_find (λ el, el_id el = id) l.
Proof.
  unfold indexOf. rewrite list_find_fmap.
  change ((λ x : string, x = id) ∘ el_id) with (λ el : LayoutElement, el_id el = id).
  by destruct (list_find _ l) as [[i x]|].
Qed.

Lemma move_row {A} (l : list A) (fromIndex toIndex : nat) (x : A) :
  l !! fromIndex = Some x → (toIndex < length l)%nat →
  let newList := delete fromIndex l in
  let moved := take toIndex newList ++ x :: drop toIndex newList in
  moved !! toIndex = Some x
  ∧ delete toIndex moved = newList
  ∧ moved ≡ₚ l.
Proof.
  intros Hfrom Hto newList moved.
  assert (length (take toIndex newList) = toIndex) as Hlen.
  { apply length_take_le. unfold newList.
    rewrite length_delete by eauto. lia. }
  split; [|split].
  - subst moved. by apply list_lookup_middle.
  - subst moved. rewrite <-Hlen at 1.
    rewrite delete_middle. apply take_drop.
  - subst moved. rewrite <-Permutation_middle, take_drop.
    symmetry. by apply delete_Permutation.
Qed.

Lemma handleDrop_Some draggedId targetId elements ids :
  handleDrop draggedId targetId elements = Some ids →
  let rows := el_id <$> sortedElements elements in
  ∃ fromIndex toIndex,
    draggedId ≠ targetId
    ∧ indexOf draggedId rows = Some fromIndex
    ∧ indexOf targetId rows = Some toIndex
    ∧ ids !! toIndex = Some draggedId
    ∧ delete toIndex ids = delete fromIndex rows
    ∧ ids ≡ₚ rows.
Proof.
  intros H rows. unfold handleDrop in H.
  case_bool_decide as Hne; [done|].
  destruct (list_find _ _) as [[fromIndex movedItem]|] eqn:Hfrom; [|done].
  destruct (list_find (λ el, el_id el = targetId) _)
    as [[toIndex target]|] eqn:Hto; [|done].
  injection H as <-.
  exists fromIndex, toIndex. split; [done|].
  unfold rows. rewrite !indexOf_fmap_id, Hfrom, Hto. simpl.
  split; [done|]. split; [done|].
  apply list_find_Some in Hfrom as (Hfrom & Hid & _).
  apply list_find_Some in Hto as (Hto & _ & _).
  destruct (move_row (sortedElements elements) fromIndex toIndex movedItem)
    as (Hat & Hdel & Hperm); [done|by eapply lookup_lt_Some|].
  split; [|split].
  - by rewrite list_lookup_fmap, Hat; simpl; rewrite Hid.
  - by rewrite <-!list_fmap_delete, Hdel.
  - by rewrite Hperm.
Qed.

Lemma handleDrop_None draggedId targetId elements :
  handleDrop draggedId targetId elements = None ↔
  draggedId = targetId
  ∨ draggedId ∉ el_id <$> elements
  ∨ targetId ∉ el_id <$> elements.
Proof.
  assert (Hin : ∀ id, id ∈ el_id <$> elements ↔
    is_Some (list_find (λ el, el_id el = id) (sortedElements elements))).
  { intros id.
    assert (el_id <$> elements ≡ₚ el_id <$> sortedElements elements) as ->.
    { unfold sortedElements. by rewrite sort_perm. }
    split.
    - intros Hid. apply indexOf_elem_of in Hid as [i Hi].
      rewrite indexOf_fmap_id in Hi.
      by destruct (list_find _ _).
    - intros [[i x] H]. apply list_find_Some in H as (Hi & Hid & _).
      apply list_elem_of_fmap. exists x. split; [done|].
      by eapply list_elem_of_lookup_2. }
  unfold handleDrop. case_bool_decide as Hne; [split; [by left|done]|].
  rewrite !Hin.
  destruct (list_find _ _) as [[fromIndex movedItem]|].
  2:{ split; [|done]. intros _. right. left. by intros [? ?]. }
  destruct (list_find _ _) as [[toIndex target]|].
  - split; [done|]. intros [?|[H|H]]; [done|destruct H; eauto..].
  - split; [|done]. intros _. right. right. by intros [? ?].
Qed.

(** X26. A drop in the layer panel hands no order to [onReorder] exactly
    when the row is dropped on itself or one of the two ids is the id of no
    element. Otherwise the order handed over has the dragged id at the index
    the target row had, is the shown order with the dragged row taken out
    once that entry is removed, and is a permutation of the shown order: a
    row dragged down lands below the target, a row dragged up above it. *)
Theorem layer_drop_moves_row (draggedId targetId : string)
    (elements : list LayoutElement) :
  let rows := el_id <$> sortedElements elements in
  (handleDrop draggedId targetId elements = None ↔
     draggedId = targetId
     ∨ draggedId ∉ el_id <$> elements
     ∨ targetId ∉ el_id <$> elements)
  ∧ ∀ ids, handleDrop draggedId targetId elements = Some ids →
      ∃ fromIndex toIndex,
        indexOf draggedId rows = Some fromIndex
        ∧ indexOf targetId rows = Some toIndex
        ∧ ids !! toIndex = Some draggedId
        ∧ delete toIndex ids = delete fromIndex rows
        ∧ ids ≡ₚ rows.
Proof.
  intros rows. split; [apply handleDrop_None|].
  intros ids H.
  destruct (handleDrop_Some _ _ _ _ H) as (fromIndex & toIndex & _ & H').
  by exists fromIndex, toIndex.
Qed.

(** X27. With unique ids, reordering the layers to an order that lists
    every element once makes the layer panel show exactly that order: the
    pipeline returns, the elements keep their positions in the list, the
    rows of the panel sorted by z-order carry the requested ids in the
    requested order, and row [i] has z-order [total - i]. *)
Theorem layer_reorder_shows_requested_order (sortedIds : list string)
    (prev : list LayoutElement) (viewport : Viewport) :
  NoDup (el_id <$> prev) → sortedIds ≡ₚ el_id <$> prev →
  ∃ out,
    handleLayerReorder sortedIds prev viewport = Ok out
    ∧ el_id <$> out = el_id <$> prev
    ∧ el_id <$> sortedElements out = sortedIds
    ∧ ∀ i e, sortedElements out !! i = Some e →
        lc_zIndex (el_layout e)
        = Some (num (Z.of_nat (length sortedIds) - Z.of_nat i)).
Proof. apply handleLayerReorder_order. Qed.

Lemma layer_reorder_shows_requested_order_witness :
  ∃ out,
    handleLayerReorder ["D"; "C"] scenarioOut vp1280 = Ok out
    ∧ el_id <$> out = el_id <$> scenarioOut
    ∧ el_id <$> sortedElements out = ["D"; "C"]
    ∧ ∀ i e, sortedElements out !! i = Some e →
        lc_zIndex (el_layout e)
        = Some (num (Z.of_nat (length ["D"; "C"]) - Z.of_nat i)).
Proof.
  apply (layer_reorder_shows_requested_order ["D"; "C"] scenarioOut vp1280).
  - by_evaluation.
  - apply Permutation_swap.
Defined.

(** X28. With unique ids, after a drop in the layer panel has gone through
    [handleLayerReorder], the panel shows the dragged row at the index the
    target row had, and the other rows in the order they had before. *)
Theorem layer_drop_is_shown (draggedId targetId : string)
    (elements : list LayoutElement) (viewport : Viewport)
    (ids : list string) :
  NoDup (el_id <$> elements) →
  handleDrop draggedId targetId elements = Some ids →
  ∃ out fromIndex toIndex,
    handleLayerReorder ids elements viewport = Ok out
    ∧ indexOf draggedId (el_id <$> sortedElements elements) = Some fromIndex
    ∧ indexOf targetId (el_id <$> sortedElements elements) = Some toIndex
    ∧ (el_id <$> sortedElements out) !! toIndex = Some draggedId
    ∧ delete toIndex (el_id <$> sortedElements out)
      = delete fromIndex (el_id <$> sortedElements elements).
Proof.
  intros Hnd H.
  destruct (handleDrop_Some _ _ _ _ H)
    as (fromIndex & toIndex & _ & Hfrom & Hto & Hat & Hdel & Hperm).
  destruct (handleLayerReorder_order ids elements viewport Hnd)
    as (out & Hout & _ & Horder & _).
  { rewrite Hperm. unfold sortedElements. by rewrite sort_perm. }
  exists out, fromIndex, toIndex. by rewrite Horder.
Qed.

Lemma layer_drop_is_shown_witness :
  ∃ out fromIndex toIndex,
    handleLayerReorder ["C"; "D"] scenarioOut vp1280 = Ok out
    ∧ indexOf "D" (el_id <$> sortedElements scenarioOut) = Some fromIndex
    ∧ indexOf "C" (el_id <$> sortedElements scenarioOut) = Some toIndex
    ∧ (el_id <$> sortedElements out) !! toIndex = Some "D"
    ∧ delete toIndex (el_id <$> sortedElements out)
      = delete fromIndex (el_id <$> sortedElements scenarioOut).
Proof.
  apply (layer_drop_is_shown "D" "C" scenarioOut vp1280 ["C"; "D"]);
    by_evaluation.
Defined.
